(** * The checkers server: coordinate mapping, move inference, board
      reconciliation and the session registry of [game/consumers.py].

    The Python integers are [Z]; a board snapshot is a list of rows of
    booleans; the class-level dictionary [instances] is a [gmap] from room
    names to object references, and the referenced [CheckersWrapper] objects
    live in a store, so that two consumers of one room share one object.
    The rule engine ([checkers.game.Game]) is an external library: it is an
    interface here ([Game.RuleEngine]) and every theorem holds for all its
    implementations. *)

From Stdlib Require Import ZArith Lia.
From stdpp Require Import gmap strings list.

Open Scope Z_scope.

(** ** Python exceptions and the two effects of the code *)

(** The exceptions the modelled code can raise.  [IndexError] is a list
    index out of range.  [ReferenceError] stands for a reference to an
    object that is not in the store, and [RandomExhausted] for a random
    generator that has no draw left: neither happens in Python, where a
    reference keeps its object alive and the generator never runs dry. *)
Inductive exn : Set := IndexError | ReferenceError | RandomExhausted.

Inductive outcome (A : Type) : Type :=
| Ok (a : A)
| Raise (e : exn).
Arguments Ok {A} a.
Arguments Raise {A} e.

Definition outcome_bind {A B : Type} (m : outcome A) (k : A → outcome B) : outcome B :=
  match m with
  | Ok a => k a
  | Raise e => Raise e
  end.

Notation "'let?' x := e 'in' k" := (outcome_bind e (fun x => k))
  (at level 10, x name, e at level 100, k at level 200).
Notation "'let?' ' p := e 'in' k" := (outcome_bind e (fun p => k))
  (at level 10, p pattern, e at level 100, k at level 200).

(** A method of an object whose fields are [S]: it returns or raises, and
    in both cases leaves a state behind (an exception rolls nothing back). *)
Definition M (S A : Type) : Type := S → outcome A * S.

Definition ret {S A : Type} (a : A) : M S A := fun s => (Ok a, s).

Definition bind {S A B : Type} (m : M S A) (k : A → M S B) : M S B :=
  fun s => match m s with
           | (Ok a, s') => k a s'
           | (Raise e, s') => (Raise e, s')
           end.

Definition gets {S A : Type} (f : S → A) : M S A := fun s => (Ok (f s), s).

Definition modify {S : Type} (f : S → S) : M S unit := fun s => (Ok tt, f s).

Definition lift {S A : Type} (o : outcome A) : M S A := fun s => (o, s).

Notation "'let!' x := e 'in' k" := (bind e (fun x => k))
  (at level 10, x name, e at level 100, k at level 200).
Notation "'let!' ' p := e 'in' k" := (bind e (fun p => k))
  (at level 10, p pattern, e at level 100, k at level 200).

(** [for x in xs: body], the loop's local variables being [s]. *)
Fixpoint for_each {X S : Type} (xs : list X) (body : X → S → outcome S) (s : S) : outcome S :=
  match xs with
  | [] => Ok s
  | x :: xs' => let? s' := body x s in for_each xs' body s'
  end.

(** ** Python lists *)

(** [range(n)] *)
Definition range (n : nat) : list Z := Z.of_nat <$> seq 0 n.

(** [len(l)] *)
Definition len {A : Type} (l : list A) : nat := length l.

(** The list position an index denotes: a negative index counts from the
    end, and what falls outside the list raises [IndexError]. *)
Definition py_position {A : Type} (l : list A) (i : Z) : outcome nat :=
  let n := Z.of_nat (length l) in
  let j := if i <? 0 then i + n else i in
  if (0 <=? j) && (j <? n) then Ok (Z.to_nat j) else Raise IndexError.

(** [l[i]] *)
Definition py_getitem {A : Type} (l : list A) (i : Z) : outcome A :=
  let? j := py_position l i in
  match l !! j with
  | Some x => Ok x
  | None => Raise IndexError
  end.

(** [l[i] = x] *)
Definition py_setitem {A : Type} (l : list A) (i : Z) (x : A) : outcome (list A) :=
  let? j := py_position l i in Ok (<[j := x]> l).

(** A grid position [(row, col)] and a board snapshot. *)
Definition pos : Type := Z * Z.
Abbreviation board := (list (list bool)).

(** [b[r][c]] *)
Definition cell (b : board) (r c : Z) : outcome bool :=
  let? row := py_getitem b r in py_getitem row c.

(** ** The rule engine, an external collaborator *)

(** A piece of [game.board.pieces]. The code reads [position] only of a
    piece that is not captured. *)
Module Piece.
Record t : Set := {
  player : Z;
  other_player : Z;
  position : Z;
  captured : bool
}.
End Piece.

(** What the code uses of [checkers.game.Game].  [Game.move g m] is [None]
    when the library's [move] raises (the move is not a possible one), and
    the game is then as it was. *)
Module Game.
Class RuleEngine : Type := {
  t : Type;
  new : t;                                  (* Game() *)
  whose_turn : t → Z;
  get_possible_moves : t → list (list Z);
  move : t → list Z → option t;
  pieces : t → list Piece.t;                 (* game.board.pieces *)
  is_over : t → bool;
  get_winner : t → option Z                 (* None: nobody has won *)
}.
End Game.

(** ** class CheckersWrapper *)

Module CheckersWrapper.
Section methods.
Context `{E : Game.RuleEngine}.

(** The fields [__init__] sets. *)
Record t : Type := {
  game : Game.t;
  instance_count : Z
}.

Definition init : t := {| game := Game.new; instance_count := 0 |}.

Definition whose_turn : M t Z := gets (fun self => Game.whose_turn (game self)).

Definition moves : M t (list (list Z)) :=
  gets (fun self => Game.get_possible_moves (game self)).

(** [try: self.game.move(move) except: return False]; [return True] *)
Definition make_move (mv : list Z) : M t bool :=
  fun self =>
    match Game.move (game self) mv with
    | Some g => (Ok true, {| game := g; instance_count := instance_count self |})
    | None => (Ok false, self)
    end.

(** The loop of [random_player_move].  [draws] are the values
    [int(random.random() * len(moves))] takes, one for each turn of the
    loop. *)
Fixpoint random_player_move_loop (whose : Z) (draws : list Z) : M t bool :=
  let! now := whose_turn in
  if now =? whose then
    let! ms := moves in
    if (len ms =? 0)%nat then ret false
    else
      match draws with
      | [] => lift (Raise RandomExhausted)
      | d :: draws' =>
          let! mv := lift (py_getitem ms d) in
          let! result := make_move mv in
          if negb result then ret false
          else random_player_move_loop whose draws'
      end
  else ret true.

Definition random_player_move (draws : list Z) : M t bool :=
  let! whose := whose_turn in
  random_player_move_loop whose draws.

Definition grid_to_checkers (row col player : Z) : Z :=
  let res := row * 4 + 1 in
  let col := if row mod 2 =? 0 then col - 1 else col in
  let pos := res + col / 2 in
  if player =? 1 then Z.abs (pos - 33) else pos.

Definition checkers_to_grid (num player : Z) : pos :=
  let num := if player =? 1 then Z.abs (num - 33) else num in
  let row := (num - 1) / 4 in
  let col := num - (row * 4 + 1) in
  let col := col * 2 in
  let col := if row mod 2 =? 0 then col + 1 else col in
  (row, col).

(** The inner function of [make_move_from_board]: the last vacated and
    the last newly occupied square the scan meets.  Python evaluates
    [prev_board[r][c]] and then, in whichever branch, [curr_board[r][c]]. *)
Definition boards_same (prev_board curr_board : board)
  : outcome (option pos * option pos) :=
  for_each (range (len prev_board)) (fun r st =>
    let? row0 := py_getitem prev_board 0 in
    for_each (range (len row0)) (fun c '(start_pos, end_pos) =>
      let? p := cell prev_board r c in
      let? q := cell curr_board r c in
      if p && negb q then Ok (Some (r, c), end_pos)
      else if negb p && q then Ok (start_pos, Some (r, c))
      else Ok (start_pos, end_pos)) st) (None, None).

(** Returns the boolean and the list [error_location] as the call leaves
    it. *)
Definition make_move_from_board (prev_board curr_board : board) (player : Z)
    (error_location : list pos) : M t (bool * list pos) :=
  let! curr_player := whose_turn in
  let! '(start_pos, end_pos) := lift (boards_same prev_board curr_board) in
  match start_pos, end_pos with
  | Some start_pos, Some end_pos =>
      let! ok := make_move [grid_to_checkers start_pos.1 start_pos.2 player;
                            grid_to_checkers end_pos.1 end_pos.2 player] in
      if ok then ret (true, error_location)
      else ret (false, error_location ++ [end_pos])
  | _, _ => ret (false, error_location)
  end.

(** [opponent_board[row][col] = True] *)
Definition mark (b : board) (row col : Z) : outcome board :=
  let? line := py_getitem b row in
  let? line' := py_setitem line col true in
  py_setitem b row line'.

Definition add_opponent_pieces (player : Z) : M t board :=
  let! ps := gets (fun self => Game.pieces (game self)) in
  lift (for_each ps (fun piece opponent_board =>
          if (Piece.other_player piece =? player) && negb (Piece.captured piece) then
            let '(row, col) := checkers_to_grid (Piece.position piece) player in
            mark opponent_board row col
          else Ok opponent_board)
        (replicate 8 (replicate 8 false))).

Definition validate_player_board (b : board) (player : Z) : M t (list pos) :=
  let! ps := gets (fun self => Game.pieces (game self)) in
  lift (
    let? '(seen, invalid_positions) :=
      for_each ps (fun piece '(seen, invalid_positions) =>
        if (Piece.player piece =? player) && negb (Piece.captured piece) then
          let '(row, col) := checkers_to_grid (Piece.position piece) player in
          let seen : gset pos := seen ∪ {[ (row, col) ]} in
          let? occupied := cell b row col in
          if negb occupied then Ok (seen, invalid_positions ++ [(row, col)])
          else Ok (seen, invalid_positions)
        else Ok (seen, invalid_positions))
      (∅, []) in
    for_each (range 8) (fun r invalid_positions =>
      for_each (range 8) (fun c invalid_positions =>
        if bool_decide ((r, c) ∉ seen) then
          let? occupied := cell b r c in
          if occupied then Ok (invalid_positions ++ [(r, c)])
          else Ok invalid_positions
        else Ok invalid_positions) invalid_positions) invalid_positions).

(** [0] when the game goes on, else [get_winner()], which is [None] when
    nobody has won. *)
Definition is_over : M t (option Z) :=
  gets (fun self =>
    if Game.is_over (game self) then Game.get_winner (game self) else Some 0).

(** *** The class and its objects *)

(** The objects of the class, by reference (a reference is an index of
    [objects], and [cls()] makes the next one), and the class attribute
    [instances]. *)
Record cls : Type := {
  objects : list t;
  instances : gmap string nat
}.

Definition get_instance (room_group_name : string) : M cls nat :=
  fun c =>
    match instances c !! room_group_name with
    | None =>
        let ref := length (objects c) in
        (Ok ref, {| objects := objects c ++ [init];
                    instances := <[room_group_name := ref]> (instances c) |})
    | Some ref => (Ok ref, c)
    end.

Definition remove_instance (room_group_name : string) : M cls unit :=
  modify (fun c => {| objects := objects c;
                      instances := delete room_group_name (instances c) |}).

(** A method call on the object [ref] refers to. *)
Definition on_object {A : Type} (ref : nat) (m : M t A) : M cls A :=
  fun c =>
    match objects c !! ref with
    | Some self =>
        let '(r, self') := m self in
        (r, {| objects := <[ref := self']> (objects c); instances := instances c |})
    | None => (Raise ReferenceError, c)
    end.

(** [self.instance_count += d] *)
Definition add_instance_count (d : Z) : M t unit :=
  modify (fun self => {| game := game self; instance_count := instance_count self + d |}).

End methods.
Arguments t {E}.
Arguments cls {E}.
End CheckersWrapper.

(** ** class ChatConsumer *)

Module ChatConsumer.
Section methods.
Context `{E : Game.RuleEngine}.

(** The attributes [connect] sets; [game] is a reference to the shared
    [CheckersWrapper] object. *)
Record t : Type := {
  room_name : string;
  room_group_name : string;
  game : nat;
  player_num : Z
}.

(** A request: the command and the arguments it reads.  [get_player_num]
    is the command [player_num], and [unknown] any command that [receive]
    does not know.  [draws] of [random_player_move] are the draws of the
    random generator during the call. *)
Inductive command : Type :=
| add_opponent_pieces
| validate_player_board (b : board)
| whose_turn
| make_move_from_board (prev_board curr_board : board)
| random_player_move (draws : list Z)
| is_over
| get_player_num
| make_move (mv : list Z)
| moves
| echo (s : string)
| unknown (cmd : string).

(** An element of [results]. *)
Inductive value : Type :=
| VBoard (b : board)
| VPositions (l : list pos)
| VInt (z : Z)
| VNone
| VBool (b : bool)
| VMoves (ms : list (list Z))
| VStr (s : string).

Definition connect (name : string) : M CheckersWrapper.cls t :=
  let group := "chat_" +:+ name in
  let! ref := CheckersWrapper.get_instance group in
  let! _ := CheckersWrapper.on_object ref (CheckersWrapper.add_instance_count 1) in
  let! count := CheckersWrapper.on_object ref (gets CheckersWrapper.instance_count) in
  let num := if (count =? 1) || (count =? 2) then count else -1 in
  ret {| room_name := name; room_group_name := group; game := ref; player_num := num |}.

Definition disconnect (self : t) : M CheckersWrapper.cls unit :=
  let! _ := CheckersWrapper.on_object (game self) (CheckersWrapper.add_instance_count (-1)) in
  let! count := CheckersWrapper.on_object (game self) (gets CheckersWrapper.instance_count) in
  if count <=? 0 then CheckersWrapper.remove_instance (room_group_name self)
  else ret tt.

(** The list [results] that [receive] sends back. *)
Definition receive (self : t) (cmd : command) : M CheckersWrapper.cls (list value) :=
  let call {A : Type} (m : M CheckersWrapper.t A) := CheckersWrapper.on_object (game self) m in
  match cmd with
  | add_opponent_pieces =>
      let! b := call (CheckersWrapper.add_opponent_pieces (player_num self)) in
      ret [VBoard b]
  | validate_player_board b =>
      let! l := call (CheckersWrapper.validate_player_board b (player_num self)) in
      ret [VPositions l]
  | whose_turn =>
      let! p := call CheckersWrapper.whose_turn in
      ret [VInt p]
  | make_move_from_board prev_board curr_board =>
      let error_location := [] in
      let! '(moved, error_location) :=
        call (CheckersWrapper.make_move_from_board prev_board curr_board
                (player_num self) error_location) in
      ret [VBool moved; VPositions error_location]
  | random_player_move draws =>
      let! r := call (CheckersWrapper.random_player_move draws) in
      ret [VBool r]
  | is_over =>
      let! w := call CheckersWrapper.is_over in
      ret [match w with Some p => VInt p | None => VNone end]
  | get_player_num => ret [VInt (player_num self)]
  | make_move mv =>
      let! r := call (CheckersWrapper.make_move mv) in
      ret [VBool r]
  | moves =>
      let! ms := call CheckersWrapper.moves in
      ret [VMoves ms]
  | echo s => ret [VStr ("echoing: " +:+ s)]
  | unknown _ => ret []
  end.

End methods.
Arguments t : clear implicits.
End ChatConsumer.

(** ** Notions the statements use *)

(** The squares of a board of [rows] rows and [cols] columns in the order
    the scans meet them: row by row, and each row by columns. *)
Definition squares (rows cols : nat) : list pos :=
  r ← range rows; (fun c => (r, c)) <$> range cols.

(** A board all of whose [rows] rows have [cols] cells. *)
Definition shape (rows cols : nat) (b : board) : Prop :=
  length b = rows ∧ Forall (fun line => length line = cols) b.

(** What a board shows at a square ([false] where it has no cell). *)
Definition occupied (b : board) (sq : pos) : bool :=
  match cell b sq.1 sq.2 with
  | Ok v => v
  | Raise _ => false
  end.

(** A square holds a piece before and none after, and the converse. *)
Definition vacated (prev_board curr_board : board) (sq : pos) : bool :=
  occupied prev_board sq && negb (occupied curr_board sq).

Definition filled (prev_board curr_board : board) (sq : pos) : bool :=
  negb (occupied prev_board sq) && occupied curr_board sq.

(** What the scan of [boards_same] does to its two variables at a square. *)
Definition note (prev_board curr_board : board) (st : option pos * option pos) (sq : pos)
  : option pos * option pos :=
  if vacated prev_board curr_board sq then (Some sq, st.2)
  else if filled prev_board curr_board sq then (st.1, Some sq)
  else st.

(** The other player slot. *)
Definition opponent_of (p : Z) : Z := if p =? 1 then 2 else 1.

(** The pieces of [player] that are on the board, and the squares they
    stand on in the frame of [frame]. *)
Definition own_live (who : Z) (piece : Piece.t) : bool :=
  (Piece.player piece =? who) && negb (Piece.captured piece).

Definition expected_squares (ps : list Piece.t) (who frame : Z) : list pos :=
  (fun piece => CheckersWrapper.checkers_to_grid (Piece.position piece) frame)
    <$> filter (fun piece => own_live who piece = true) ps.

(** The squares [add_opponent_pieces] marks: those of the pieces on the
    board whose opponent is [who], in the frame of [who]. *)
Definition shown_squares (ps : list Piece.t) (who : Z) : list pos :=
  (fun piece => CheckersWrapper.checkers_to_grid (Piece.position piece) who)
    <$> filter (fun piece =>
                  (Piece.other_player piece =? who) && negb (Piece.captured piece) = true) ps.

(** The square that a half turn of the board brings to [sq]. *)
Definition flip (sq : pos) : pos := (7 - sq.1, 7 - sq.2).

(** The pieces as the engine keeps them: a piece belongs to player 1 or 2
    and names the other one as its opponent, and a piece on the board
    stands on one of the squares 1..32. *)
Definition engine_pieces (ps : list Piece.t) : Prop :=
  Forall (fun piece =>
    (Piece.player piece = 1 ∨ Piece.player piece = 2) ∧
    Piece.other_player piece = opponent_of (Piece.player piece) ∧
    (Piece.captured piece = false → 1 ≤ Piece.position piece ≤ 32)) ps.

(** The board turned by half a turn: what the player across the table
    sees. *)
Definition rotate (b : board) : board := reverse (reverse <$> b).

(** ** An instance of the rule engine

    Draughts without jumps and kings: a man steps to a free square
    diagonally ahead (player 1 towards the higher numbers), and the turn
    passes.  It starts from the usual position, player 1 on 1..12, player
    2 on 21..32, player 1 to move. *)
Module Steps.

Record state : Set := {
  men : list Piece.t;
  turn : Z
}.

Definition man (who : Z) (n : Z) : Piece.t :=
  {| Piece.player := who; Piece.other_player := opponent_of who;
     Piece.position := n; Piece.captured := false |}.

Definition start : state :=
  {| men := (man 1 <$> [1; 2; 3; 4; 5; 6; 7; 8; 9; 10; 11; 12])
            ++ (man 2 <$> [21; 22; 23; 24; 25; 26; 27; 28; 29; 30; 31; 32]);
     turn := 1 |}.

Definition free (s : state) (n : Z) : bool :=
  forallb (fun piece => Piece.captured piece || negb (Piece.position piece =? n)) (men s).

(** The squares diagonally ahead of square [n] for player [who]. *)
Definition ahead (who n : Z) : list Z :=
  let row := (n - 1) / 4 in
  let column := (n - 1) mod 4 in
  let next_row := if who =? 1 then row + 1 else row - 1 in
  if (0 <=? next_row) && (next_row <? 8) then
    (fun k => next_row * 4 + k + 1) <$>
      filter (fun k => 0 ≤ k < 4)
             (if row mod 2 =? 0 then [column; column + 1] else [column - 1; column])
  else [].

Definition possible_moves (s : state) : list (list Z) :=
  piece ← men s;
  if (Piece.player piece =? turn s) && negb (Piece.captured piece) then
    (fun target => [Piece.position piece; target]) <$>
      filter (fun target => free s target = true) (ahead (turn s) (Piece.position piece))
  else [].

Definition relocate (a b : Z) (piece : Piece.t) : Piece.t :=
  if negb (Piece.captured piece) && (Piece.position piece =? a) then
    {| Piece.player := Piece.player piece; Piece.other_player := Piece.other_player piece;
       Piece.position := b; Piece.captured := false |}
  else piece.

Definition step (s : state) (mv : list Z) : option state :=
  if bool_decide (mv ∈ possible_moves s) then
    match mv with
    | [a; b] => Some {| men := relocate a b <$> men s; turn := opponent_of (turn s) |}
    | _ => None
    end
  else None.

Definition over (s : state) : bool := bool_decide (possible_moves s = []).

#[export] Instance engine : Game.RuleEngine := {|
  Game.t := state;
  Game.new := start;
  Game.whose_turn := turn;
  Game.get_possible_moves := possible_moves;
  Game.move := step;
  Game.pieces := men;
  Game.is_over := over;
  Game.get_winner := fun s => if over s then Some (opponent_of (turn s)) else None
|}.

End Steps.

(** ** Inputs of the examples *)

(** A board with pieces on the given squares only. *)
Definition board_of (l : list pos) : board :=
  (fun r => (fun c => bool_decide ((r, c) ∈ l)) <$> range 8) <$> range 8.


(** The first party of the room "room" and the class once it has joined. *)
Definition first_party : ChatConsumer.t :=
  {| ChatConsumer.room_name := "room"; ChatConsumer.room_group_name := "chat_room";
     ChatConsumer.game := 0%nat; ChatConsumer.player_num := 1 |}.

Definition one_party_room : CheckersWrapper.cls (E := Steps.engine) :=
  {| CheckersWrapper.objects :=
       [{| CheckersWrapper.game := Game.new; CheckersWrapper.instance_count := 1 |}];
     CheckersWrapper.instances := {[ "chat_room" := 0%nat ]} |}.

(** The slot that goes with a party count. *)
Definition slot_of (count : Z) : Z :=
  if (count =? 1) || (count =? 2) then count else -1.

(** [n] parties join the room [name] one after the other. *)
Fixpoint joins `{E : Game.RuleEngine} (name : string) (n : nat)
  : M CheckersWrapper.cls (list ChatConsumer.t) :=
  match n with
  | O => ret []
  | S n' =>
      let! self := ChatConsumer.connect name in
      let! rest := joins name n' in
      ret (self :: rest)
  end.

(** The commands that call no method of the engine that changes the game. *)
Definition reads_only (cmd : ChatConsumer.command) : bool :=
  match cmd with
  | ChatConsumer.make_move_from_board _ _
  | ChatConsumer.random_player_move _
  | ChatConsumer.make_move _ => false
  | _ => true
  end.

(** No object and no room: the class as the module is loaded. *)
Definition no_rooms `{E : Game.RuleEngine} : CheckersWrapper.cls :=
  {| CheckersWrapper.objects := []; CheckersWrapper.instances := ∅ |}.

(** The object of a room after the opening move 9-13 of player 1. *)
Definition after_opening : CheckersWrapper.t (E := Steps.engine) :=
  (CheckersWrapper.make_move [9; 13] CheckersWrapper.init).2.

(** One move of the engine, taken from its list of possible moves. *)
Definition plays_one `{E : Game.RuleEngine} (g g' : Game.t) : Prop :=
  ∃ mv, mv ∈ Game.get_possible_moves g ∧ Game.move g mv = Some g'.

(** The first row of a board has no cell, or the board has no row. *)
Definition no_column (b : board) : Prop :=
  match b with
  | [] => True
  | row0 :: _ => row0 = []
  end.

(** The parties that hold the object [ref]. *)
Definition holders (ref : nat) (ps : list ChatConsumer.t) : list ChatConsumer.t :=
  filter (fun self => ChatConsumer.game self = ref) ps.

(** The class and the connected parties agree: the object of a room in
    the registry exists and counts the parties that hold it, of which
    there is at least one; a connected party holds the object of its
    room; and two rooms do not share an object. *)
Definition consistent `{E : Game.RuleEngine}
    (c : CheckersWrapper.cls) (ps : list ChatConsumer.t) : Prop :=
  (∀ k ref, CheckersWrapper.instances c !! k = Some ref →
     ∃ obj, CheckersWrapper.objects c !! ref = Some obj ∧
       CheckersWrapper.instance_count obj = Z.of_nat (length (holders ref ps)) ∧
       1 ≤ CheckersWrapper.instance_count obj) ∧
  (∀ self, self ∈ ps →
     CheckersWrapper.instances c !! ChatConsumer.room_group_name self
     = Some (ChatConsumer.game self)) ∧
  (∀ k1 k2 ref, CheckersWrapper.instances c !! k1 = Some ref →
     CheckersWrapper.instances c !! k2 = Some ref → k1 = k2).

(** The class and the connected parties as the server runs: a party
    connects, a connected party sends a command, a connected party
    disconnects, once. *)
Inductive reachable `{E : Game.RuleEngine}
  : CheckersWrapper.cls → list ChatConsumer.t → Prop :=
| reachable_start : reachable no_rooms []
| reachable_connect c ps name self c' :
    reachable c ps → ChatConsumer.connect name c = (Ok self, c') →
    reachable c' (ps ++ [self])
| reachable_receive c ps self cmd r c' :
    reachable c ps → self ∈ ps → ChatConsumer.receive self cmd c = (r, c') →
    reachable c' ps
| reachable_disconnect c ps i self r c' :
    reachable c ps → ps !! i = Some self → ChatConsumer.disconnect self c = (r, c') →
    reachable c' (delete i ps).

(** * Theorems *)

(** ** Python lists and loops *)

Lemma elem_of_range (n : nat) (i : Z) : i ∈ range n ↔ 0 ≤ i < Z.of_nat n.
Proof.
  unfold range. rewrite list_elem_of_fmap. split.
  - intros (k & -> & Hk). apply elem_of_seq in Hk. lia.
  - intros Hi. exists (Z.to_nat i). split; [lia|]. apply elem_of_seq. lia.
Qed.

Lemma elem_of_squares (rows cols : nat) (r c : Z) :
  (r, c) ∈ squares rows cols ↔ 0 ≤ r < Z.of_nat rows ∧ 0 ≤ c < Z.of_nat cols.
Proof.
  unfold squares. rewrite list_elem_of_bind. split.
  - intros (r' & Hc & Hr). apply list_elem_of_fmap in Hc as (c' & [= -> ->] & Hc).
    by rewrite <- !elem_of_range.
  - intros [Hr Hc]. exists r. split; [|by apply elem_of_range].
    apply list_elem_of_fmap. exists c. split; [done|]. by apply elem_of_range.
Qed.

Lemma py_getitem_lookup {A : Type} (l : list A) (i : Z) (x : A) :
  0 ≤ i → l !! Z.to_nat i = Some x → py_getitem l i = Ok x.
Proof.
  intros Hi Hx. pose proof (lookup_lt_Some _ _ _ Hx) as Hlt.
  unfold py_getitem, py_position.
  destruct (Z.ltb_spec i 0); [lia|].
  destruct (Z.leb_spec 0 i); [|lia].
  destruct (Z.ltb_spec i (Z.of_nat (length l))); [|lia].
  simpl. by rewrite Hx.
Qed.

Lemma shape_cell (rows cols : nat) (b : board) (r c : Z) :
  shape rows cols b → 0 ≤ r < Z.of_nat rows → 0 ≤ c < Z.of_nat cols →
  cell b r c = Ok (occupied b (r, c)).
Proof.
  intros [Hlen Hall] Hr Hc.
  destruct (lookup_lt_is_Some_2 b (Z.to_nat r)) as [line Hline]; [lia|].
  assert (length line = cols) as Hcols.
  { rewrite Forall_forall in Hall. apply Hall. eapply list_elem_of_lookup_2, Hline. }
  destruct (lookup_lt_is_Some_2 line (Z.to_nat c)) as [v Hv]; [lia|].
  assert (cell b r c = Ok v) as Hcell.
  { unfold cell. rewrite (py_getitem_lookup b r line) by (done || lia). simpl.
    apply py_getitem_lookup; [lia|done]. }
  unfold occupied. simpl. by rewrite Hcell.
Qed.

(** A loop whose body never raises on the elements it meets is a fold. *)
Lemma for_each_fold {X S : Type} (xs : list X) (body : X → S → outcome S)
    (f : S → X → S) (s : S) :
  (∀ x s', x ∈ xs → body x s' = Ok (f s' x)) →
  for_each xs body s = Ok (fold_left f xs s).
Proof.
  revert s. induction xs as [|x xs IH]; intros s Hbody; simpl; [done|].
  rewrite Hbody by left. simpl. apply IH. intros y s' Hy. apply Hbody. by right.
Qed.

Lemma fold_left_fmap {X Y S : Type} (f : S → Y → S) (g : X → Y) (xs : list X) (s : S) :
  fold_left f (g <$> xs) s = fold_left (fun s' x => f s' (g x)) xs s.
Proof. revert s. induction xs as [|x xs IH]; intros s; simpl; [done|apply IH]. Qed.

(** Two nested loops over rows and columns are one loop over the squares. *)
Lemma for_each_squares {S : Type} (rows cols : nat) (f : S → pos → S)
    (body : Z → Z → S → outcome S) (s : S) :
  (∀ r c s', (r, c) ∈ squares rows cols → body r c s' = Ok (f s' (r, c))) →
  for_each (range rows) (fun r s' => for_each (range cols) (body r) s') s
  = Ok (fold_left f (squares rows cols) s).
Proof.
  intros Hbody. unfold squares.
  assert (∀ rs, rs ⊆ range rows →
    ∀ s', for_each rs (fun r s' => for_each (range cols) (body r) s') s'
          = Ok (fold_left f (r ← rs; (fun c => (r, c)) <$> range cols) s')) as Hrows.
  { induction rs as [|r rs IH]; intros Hsub s'; simpl; [done|].
    rewrite (for_each_fold _ _ (fun s'' c => f s'' (r, c))).
    - simpl. rewrite fold_left_app, fold_left_fmap. apply IH.
      intros r' Hr'. apply Hsub. by right.
    - intros c s'' Hc. apply Hbody, elem_of_squares.
      rewrite <- !elem_of_range. split; [apply Hsub; left|done]. }
  by apply Hrows.
Qed.

Lemma for_each_ext {X S : Type} (xs : list X) (body body' : X → S → outcome S) (s : S) :
  (∀ x s', x ∈ xs → body x s' = body' x s') →
  for_each xs body s = for_each xs body' s.
Proof.
  revert s. induction xs as [|x xs IH]; intros s Hbody; simpl; [done|].
  rewrite Hbody by left. destruct (body' x s); simpl; [|done].
  apply IH. intros y s' Hy. apply Hbody. by right.
Qed.

(** ** The coordinate mapper *)

Lemma checkers_to_grid_inverse (row col p : Z) :
  0 ≤ row ≤ 7 → 0 ≤ col ≤ 7 → (row + col) mod 2 = 1 →
  CheckersWrapper.checkers_to_grid (CheckersWrapper.grid_to_checkers row col p) p = (row, col).
Proof.
  intros Hrow Hcol Hodd.
  assert (row ∈ range 8) as Hr by (apply elem_of_range; lia).
  assert (col ∈ range 8) as Hc by (apply elem_of_range; lia).
  unfold CheckersWrapper.checkers_to_grid, CheckersWrapper.grid_to_checkers.
  destruct (p =? 1);
    vm_compute in Hr; vm_compute in Hc;
    repeat (apply elem_of_cons in Hr as [->|Hr]); try (by apply elem_of_nil in Hr);
    repeat (apply elem_of_cons in Hc as [->|Hc]); try (by apply elem_of_nil in Hc);
    solve [reflexivity | vm_compute in Hodd; discriminate Hodd].
Qed.

(** C1. On every dark square (row and column within 0..7, their sum odd)
    and for both players, mapping the square to its number with
    [grid_to_checkers] and the number back with [checkers_to_grid] gives
    the square again. *)
Theorem grid_round_trip (row col p : Z) :
  0 ≤ row ≤ 7 → 0 ≤ col ≤ 7 → (row + col) mod 2 = 1 → p = 1 ∨ p = 2 →
  CheckersWrapper.checkers_to_grid (CheckersWrapper.grid_to_checkers row col p) p = (row, col).
Proof. intros Hrow Hcol Hodd _. by apply checkers_to_grid_inverse. Qed.

Lemma grid_round_trip_witness :
  (5 + 2) mod 2 = 1 ∧
  CheckersWrapper.checkers_to_grid (CheckersWrapper.grid_to_checkers 5 2 1) 1 = (5, 2).
Proof.
  split; [reflexivity|].
  apply (grid_round_trip 5 2 1); [lia | lia | reflexivity | by left].
Defined.

(** ** Move inference *)

Section move_inference.
Context `{E : Game.RuleEngine}.
Implicit Types (prev curr : board) (self : CheckersWrapper.t).

Lemma vacated_not_filled prev curr (sq : pos) :
  vacated prev curr sq = true → filled prev curr sq = false.
Proof. unfold vacated, filled. by destruct (occupied prev sq), (occupied curr sq). Qed.

(** The scan keeps the last square of each kind it meets. *)
Lemma fold_note prev curr (l : list pos) (st : option pos * option pos) :
  fold_left (note prev curr) l st =
    (match last (filter (vacated prev curr) l) with Some sq => Some sq | None => st.1 end,
     match last (filter (filled prev curr) l) with Some sq => Some sq | None => st.2 end).
Proof.
  revert st. induction l as [|sq l IH]; intros st; simpl; [by destruct st|].
  rewrite IH, !filter_cons. unfold note.
  destruct (vacated prev curr sq) eqn:Hv.
  - rewrite (vacated_not_filled _ _ _ Hv). simpl.
    rewrite last_cons. by destruct (last (filter _ l)).
  - destruct (filled prev curr sq) eqn:Hf; simpl; [|done].
    rewrite last_cons. by destruct (last (filter (filled prev curr) l)).
Qed.

Lemma boards_same_scan (rows cols : nat) prev curr :
  shape rows cols prev → shape rows cols curr →
  CheckersWrapper.boards_same prev curr
  = Ok (fold_left (note prev curr) (squares rows cols) (None, None)).
Proof.
  intros Hprev Hcurr. unfold CheckersWrapper.boards_same, len.
  pose proof Hprev as [Hlen Hlines]. rewrite Hlen.
  rewrite <- (for_each_squares rows cols (note prev curr)
    (fun r c '(start_pos, end_pos) =>
       let? p := cell prev r c in
       let? q := cell curr r c in
       if p && negb q then Ok (Some (r, c), end_pos)
       else if negb p && q then Ok (start_pos, Some (r, c))
       else Ok (start_pos, end_pos))).
  - apply for_each_ext. intros r st Hr. apply elem_of_range in Hr.
    destruct prev as [|row0 ?]; simpl in *; [lia|].
    unfold py_getitem, py_position. simpl.
    apply Forall_cons in Hlines as [-> _]. done.
  - intros r c [start_pos end_pos] Hsq. apply elem_of_squares in Hsq as [Hr Hc].
    rewrite (shape_cell rows cols prev), (shape_cell rows cols curr) by done.
    simpl. unfold note, vacated, filled. simpl.
    by destruct (occupied prev (r, c)), (occupied curr (r, c)).
Qed.

(** On boards of one shape the scan never raises, and finds the last
    vacated and the last newly occupied square. *)
Lemma boards_same_last (rows cols : nat) prev curr :
  shape rows cols prev → shape rows cols curr →
  CheckersWrapper.boards_same prev curr
  = Ok (last (filter (vacated prev curr) (squares rows cols)),
        last (filter (filled prev curr) (squares rows cols))).
Proof.
  intros Hprev Hcurr. rewrite (boards_same_scan rows cols) by done.
  rewrite fold_note. simpl.
  by destruct (last (filter (vacated _ _) _)), (last (filter (filled _ _) _)).
Qed.

Lemma filter_nowhere (f : pos → bool) (l : list pos) :
  (∀ sq, sq ∈ l → f sq = false) → filter f l = [].
Proof.
  induction l as [|sq l IH]; intros Hf; [done|].
  rewrite filter_cons, (Hf sq) by left. simpl. apply IH.
  intros sq' Hin. apply Hf. by right.
Qed.

(** Between two identical snapshots no square is vacated and none is
    newly occupied. *)
Lemma identical_snapshots (b : board) (sq : pos) :
  vacated b b sq = false ∧ filled b b sq = false.
Proof. unfold vacated, filled. by destruct (occupied b sq). Qed.

(** What [make_move_from_board] does once the scan has returned. *)
Lemma make_move_from_board_found prev curr (p : Z) (errs : list pos) self (s e : pos) :
  CheckersWrapper.boards_same prev curr = Ok (Some s, Some e) →
  CheckersWrapper.make_move_from_board prev curr p errs self =
    match Game.move (CheckersWrapper.game self)
            [CheckersWrapper.grid_to_checkers s.1 s.2 p;
             CheckersWrapper.grid_to_checkers e.1 e.2 p] with
    | Some g =>
        (Ok (true, errs),
         {| CheckersWrapper.game := g;
            CheckersWrapper.instance_count := CheckersWrapper.instance_count self |})
    | None => (Ok (false, errs ++ [e]), self)
    end.
Proof.
  intros Hscan. unfold CheckersWrapper.make_move_from_board, bind, lift.
  unfold CheckersWrapper.whose_turn, gets. rewrite Hscan.
  unfold CheckersWrapper.make_move.
  by destruct (Game.move _ _).
Qed.

Lemma make_move_from_board_not_found prev curr (p : Z) (errs : list pos) self
    (s e : option pos) :
  CheckersWrapper.boards_same prev curr = Ok (s, e) → s = None ∨ e = None →
  CheckersWrapper.make_move_from_board prev curr p errs self = (Ok (false, errs), self).
Proof.
  intros Hscan Hnone. unfold CheckersWrapper.make_move_from_board, bind, lift.
  unfold CheckersWrapper.whose_turn, gets. rewrite Hscan.
  destruct Hnone as [-> | ->]; [done|]. by destruct s.
Qed.

(** C3. When the scan finds a vacated square and a newly occupied one and
    the engine rejects the move between their numbers,
    [make_move_from_board] returns [False], leaves the game as it was, and
    appends the newly occupied square, and nothing else, to
    [error_location]: called with the empty list, as [receive] does, it
    reports exactly that one square. *)
Theorem illegal_move_reports_destination prev curr (p : Z) self (s e : pos) :
  CheckersWrapper.boards_same prev curr = Ok (Some s, Some e) →
  Game.move (CheckersWrapper.game self)
    [CheckersWrapper.grid_to_checkers s.1 s.2 p;
     CheckersWrapper.grid_to_checkers e.1 e.2 p] = None →
  CheckersWrapper.make_move_from_board prev curr p [] self = (Ok (false, [e]), self) ∧
  ∀ errs, CheckersWrapper.make_move_from_board prev curr p errs self
          = (Ok (false, errs ++ [e]), self).
Proof.
  intros Hscan Hreject.
  split; [|intros errs]; rewrite (make_move_from_board_found _ _ _ _ _ s e Hscan);
    by rewrite Hreject.
Qed.

(** C4. On two 8x8 snapshots between which no square is vacated, or no
    square is newly occupied (identical snapshots, a piece that is only
    added, a piece that is only removed), [make_move_from_board] returns
    [False] and leaves [error_location] and the game as they were, whatever
    the engine is: no move reaches it. *)
Theorem no_move_found_is_silent prev curr (p : Z) (errs : list pos) self :
  shape 8 8 prev → shape 8 8 curr →
  (∀ sq, sq ∈ squares 8 8 → vacated prev curr sq = false) ∨
  (∀ sq, sq ∈ squares 8 8 → filled prev curr sq = false) →
  CheckersWrapper.make_move_from_board prev curr p errs self = (Ok (false, errs), self).
Proof.
  intros Hprev Hcurr Hnone.
  apply (make_move_from_board_not_found _ _ _ _ _ _ _ (boards_same_last 8 8 _ _ Hprev Hcurr)).
  destruct Hnone as [Hnone|Hnone]; [left|right]; by rewrite filter_nowhere.
Qed.

(** C5. On two 8x8 snapshots the scan raises nothing, however many squares
    differ: its start is the last vacated square and its end the last newly
    occupied square in the order of the scan (rows 0..7, and columns 0..7
    in each row), and when both exist [make_move_from_board] submits the
    move between the numbers of these two squares, and reports as for any
    other move. *)
Theorem last_seen_pair_is_the_move prev curr (p : Z) (errs : list pos) self :
  shape 8 8 prev → shape 8 8 curr →
  let start_pos := last (filter (vacated prev curr) (squares 8 8)) in
  let end_pos := last (filter (filled prev curr) (squares 8 8)) in
  CheckersWrapper.boards_same prev curr = Ok (start_pos, end_pos) ∧
  ∀ s e : pos, start_pos = Some s → end_pos = Some e →
    CheckersWrapper.make_move_from_board prev curr p errs self =
      match Game.move (CheckersWrapper.game self)
              [CheckersWrapper.grid_to_checkers s.1 s.2 p;
               CheckersWrapper.grid_to_checkers e.1 e.2 p] with
      | Some g =>
          (Ok (true, errs),
           {| CheckersWrapper.game := g;
              CheckersWrapper.instance_count := CheckersWrapper.instance_count self |})
      | None => (Ok (false, errs ++ [e]), self)
      end.
Proof.
  intros Hprev Hcurr start_pos end_pos.
  pose proof (boards_same_last 8 8 prev curr Hprev Hcurr) as Hscan.
  split; [exact Hscan|].
  intros s e Hs He. apply make_move_from_board_found.
  by rewrite Hscan; subst start_pos end_pos; rewrite Hs, He.
Qed.

End move_inference.

Lemma shape_board_of (l : list pos) : shape 8 8 (board_of l).
Proof. split; [reflexivity|]. unfold board_of. simpl. repeat constructor. Qed.

Lemma illegal_move_reports_destination_witness :
  CheckersWrapper.make_move_from_board (board_of [(2, 1)]) (board_of [(4, 1)]) 2 []
    (CheckersWrapper.init (E := Steps.engine))
  = (Ok (false, [(4, 1)]), CheckersWrapper.init).
Proof.
  apply (illegal_move_reports_destination (E := Steps.engine)
           (board_of [(2, 1)]) (board_of [(4, 1)]) 2 CheckersWrapper.init (2, 1) (4, 1));
    vm_compute; reflexivity.
Defined.

Lemma no_move_found_is_silent_witness :
  CheckersWrapper.make_move_from_board (board_of [(2, 1)]) (board_of [(2, 1); (3, 0)]) 2 []
    (CheckersWrapper.init (E := Steps.engine))
  = (Ok (false, []), CheckersWrapper.init).
Proof.
  apply (no_move_found_is_silent (E := Steps.engine)
           (board_of [(2, 1)]) (board_of [(2, 1); (3, 0)]) 2 [] CheckersWrapper.init
           (shape_board_of _) (shape_board_of _)).
  left. apply Forall_forall. apply (bool_decide_unpack _). by vm_compute.
Defined.

Lemma last_seen_pair_is_the_move_witness :
  CheckersWrapper.boards_same (board_of [(2, 1); (2, 3)]) (board_of [(3, 0); (3, 2)])
  = Ok (Some (2, 3), Some (3, 2)) ∧
  (CheckersWrapper.make_move_from_board
     (board_of [(2, 1); (2, 3)]) (board_of [(3, 0); (3, 2)]) 2 []
     (CheckersWrapper.init (E := Steps.engine))).1 = Ok (true, []).
Proof.
  destruct (last_seen_pair_is_the_move (E := Steps.engine)
              (board_of [(2, 1); (2, 3)]) (board_of [(3, 0); (3, 2)]) 2 []
              CheckersWrapper.init (shape_board_of _) (shape_board_of _)) as [Hscan Hmove].
  split; [exact Hscan|].
  rewrite (Hmove (2, 3) (3, 2)); vm_compute; reflexivity.
Defined.

(** ** Board reconciliation *)

Arguments CheckersWrapper.checkers_to_grid : simpl never.
Arguments CheckersWrapper.grid_to_checkers : simpl never.

Lemma checkers_to_grid_on_board (n p : Z) :
  1 ≤ n ≤ 32 → CheckersWrapper.checkers_to_grid n p ∈ squares 8 8.
Proof.
  intros Hn. assert (n - 1 ∈ range 32) as Hin by (apply elem_of_range; lia).
  replace n with (n - 1 + 1) by lia. clear Hn. revert Hin. generalize (n - 1). intros m Hm.
  unfold CheckersWrapper.checkers_to_grid.
  destruct (p =? 1); vm_compute in Hm;
    repeat (apply elem_of_cons in Hm as [->|Hm]); try (by apply elem_of_nil in Hm);
    by apply elem_of_squares.
Qed.

Lemma py_getitem_nonneg {A : Type} (l : list A) (i : Z) :
  0 ≤ i →
  py_getitem l i = match l !! Z.to_nat i with Some x => Ok x | None => Raise IndexError end.
Proof.
  intros Hi. unfold py_getitem, py_position.
  destruct (Z.ltb_spec i 0); [lia|].
  destruct (Z.leb_spec 0 i); [|lia].
  destruct (Z.ltb_spec i (Z.of_nat (length l))); cbn; [done|].
  rewrite (proj2 (lookup_ge_None l (Z.to_nat i))); [done|lia].
Qed.

Lemma py_setitem_insert {A : Type} (l : list A) (i : Z) (x : A) :
  0 ≤ i < Z.of_nat (length l) → py_setitem l i x = Ok (<[Z.to_nat i := x]> l).
Proof.
  intros Hi. unfold py_setitem, py_position.
  destruct (Z.ltb_spec i 0); [lia|].
  destruct (Z.leb_spec 0 i); [|lia].
  destruct (Z.ltb_spec i (Z.of_nat (length l))); [done|lia].
Qed.

Lemma occupied_lookup (b : board) (r c : Z) :
  0 ≤ r → 0 ≤ c →
  occupied b (r, c) = default false (line ← b !! Z.to_nat r; line !! Z.to_nat c).
Proof.
  intros Hr Hc. unfold occupied, cell. cbn [fst snd].
  rewrite (py_getitem_nonneg b r) by done.
  destruct (b !! Z.to_nat r) as [line|]; simpl; [|reflexivity].
  rewrite py_getitem_nonneg by done. by destruct (line !! Z.to_nat c).
Qed.

Lemma mark_spec (b : board) (r c : Z) :
  shape 8 8 b → (r, c) ∈ squares 8 8 →
  ∃ b', CheckersWrapper.mark b r c = Ok b' ∧ shape 8 8 b' ∧
    ∀ sq, sq ∈ squares 8 8 → (occupied b' sq = true ↔ sq = (r, c) ∨ occupied b sq = true).
Proof.
  intros [Hlen Hlines] Hsq. apply elem_of_squares in Hsq as [Hr Hc].
  destruct (lookup_lt_is_Some_2 b (Z.to_nat r)) as [line Hline]; [lia|].
  assert (length line = 8%nat) as Hline_len.
  { rewrite Forall_forall in Hlines. apply Hlines. eapply list_elem_of_lookup_2, Hline. }
  exists (<[Z.to_nat r := <[Z.to_nat c := true]> line]> b).
  split; [|split; [split|]].
  - unfold CheckersWrapper.mark. rewrite (py_getitem_lookup b r line) by (lia || done).
    cbn [outcome_bind]. rewrite py_setitem_insert by lia. cbn [outcome_bind].
    apply py_setitem_insert. lia.
  - by rewrite length_insert.
  - apply Forall_insert; [done|]. by rewrite length_insert.
  - intros [r' c'] Hsq'. apply elem_of_squares in Hsq' as [Hr' Hc'].
    rewrite !occupied_lookup by lia.
    destruct (decide (r' = r)) as [->|Hrow].
    + rewrite list_lookup_insert_eq, Hline by lia. cbn.
      destruct (decide (c' = c)) as [->|Hcol].
      * rewrite list_lookup_insert_eq by lia. cbn. split; [by left|done].
      * rewrite list_lookup_insert_ne by lia.
        split; [by right|]. intros [?|?]; [congruence|done].
    + rewrite list_lookup_insert_ne by lia.
      split; [by right|]. intros [?|?]; [congruence|done].
Qed.

Lemma occupied_rotate (b : board) (sq : pos) :
  shape 8 8 b → sq ∈ squares 8 8 → occupied (rotate b) sq = occupied b (flip sq).
Proof.
  intros [Hlen Hlines] Hsq. destruct sq as [r c].
  apply elem_of_squares in Hsq as [Hr Hc]. unfold flip. cbn [fst snd].
  rewrite !occupied_lookup by lia. unfold rotate.
  rewrite reverse_lookup by (rewrite length_fmap; lia).
  rewrite length_fmap, list_lookup_fmap, Hlen.
  replace (8 - S (Z.to_nat r))%nat with (Z.to_nat (7 - r)) by lia.
  destruct (b !! Z.to_nat (7 - r)) as [line|] eqn:Hline; cbn; [|done].
  assert (length line = 8%nat) as Hline_len.
  { rewrite Forall_forall in Hlines. apply Hlines. eapply list_elem_of_lookup_2, Hline. }
  rewrite reverse_lookup by lia. rewrite Hline_len.
  by replace (8 - S (Z.to_nat c))%nat with (Z.to_nat (7 - c)) by lia.
Qed.

Lemma shape_rotate (b : board) : shape 8 8 b → shape 8 8 (rotate b).
Proof.
  intros [Hlen Hlines]. unfold rotate. split.
  - by rewrite length_reverse, length_fmap.
  - apply Forall_reverse, Forall_fmap. eapply Forall_impl; [exact Hlines|].
    intros line Hline. cbn. by rewrite length_reverse.
Qed.

(** The two frames differ by half a turn of the board. *)
Lemma checkers_to_grid_opponent (n p : Z) :
  1 ≤ n ≤ 32 → p = 1 ∨ p = 2 →
  CheckersWrapper.checkers_to_grid n (opponent_of p)
  = flip (CheckersWrapper.checkers_to_grid n p).
Proof.
  intros Hn Hp. assert (n - 1 ∈ range 32) as Hin by (apply elem_of_range; lia).
  replace n with (n - 1 + 1) by lia. clear Hn. revert Hin. generalize (n - 1). intros m Hm.
  destruct Hp as [-> | ->]; vm_compute in Hm;
    repeat (apply elem_of_cons in Hm as [->|Hm]); try (by apply elem_of_nil in Hm);
    reflexivity.
Qed.

Lemma flip_flip (sq : pos) : flip (flip sq) = sq.
Proof. destruct sq as [r c]. unfold flip. cbn. f_equal; lia. Qed.

Lemma flip_on_board (sq : pos) : sq ∈ squares 8 8 → flip sq ∈ squares 8 8.
Proof.
  destruct sq as [r c]. unfold flip. cbn [fst snd]. rewrite !elem_of_squares. lia.
Qed.

Section reconciliation.
Context `{E : Game.RuleEngine}.
Implicit Types (b : board) (self : CheckersWrapper.t) (ps : list Piece.t).

Lemma expected_squares_on_board ps (who frame : Z) :
  engine_pieces ps → Forall (fun sq => sq ∈ squares 8 8) (expected_squares ps who frame).
Proof.
  intros Hps. unfold expected_squares. apply Forall_fmap, Forall_forall.
  intros piece Hpiece. apply list_elem_of_filter in Hpiece as [Hlive Hin].
  unfold engine_pieces in Hps. rewrite Forall_forall in Hps.
  destruct (Hps piece Hin) as (_ & _ & Hpos).
  apply checkers_to_grid_on_board, Hpos.
  unfold own_live in Hlive. apply andb_true_iff in Hlive as [_ Hlive].
  by apply negb_true_iff.
Qed.

(** The first loop of [validate_player_board]. *)
Lemma validate_pieces_loop b (p : Z) ps (seen : gset pos) (invalid : list pos) :
  shape 8 8 b → Forall (fun sq => sq ∈ squares 8 8) (expected_squares ps p p) →
  for_each ps (fun piece '(seen, invalid_positions) =>
      if (Piece.player piece =? p) && negb (Piece.captured piece) then
        let '(row, col) := CheckersWrapper.checkers_to_grid (Piece.position piece) p in
        let seen : gset pos := seen ∪ {[ (row, col) ]} in
        let? occupied := cell b row col in
        if negb occupied then Ok (seen, invalid_positions ++ [(row, col)])
        else Ok (seen, invalid_positions)
      else Ok (seen, invalid_positions)) (seen, invalid)
  = Ok (seen ∪ list_to_set (expected_squares ps p p),
        invalid ++ filter (fun sq => occupied b sq = false) (expected_squares ps p p)).
Proof.
  intros Hb. revert seen invalid.
  induction ps as [|piece ps IH]; intros seen invalid Hon.
  { cbn. by rewrite (right_id_L ∅ (∪)), app_nil_r. }
  unfold expected_squares in *. cbn [for_each].
  change ((Piece.player piece =? p) && negb (Piece.captured piece)) with (own_live p piece).
  destruct (own_live p piece) eqn:Hlive.
  - rewrite filter_cons_True in Hon |- * by done. rewrite fmap_cons in Hon |- *.
    apply Forall_cons in Hon as [Hsq Hon].
    destruct (CheckersWrapper.checkers_to_grid (Piece.position piece) p) as [row col].
    apply elem_of_squares in Hsq as [Hrow Hcol].
    rewrite (shape_cell 8 8) by done. cbn [outcome_bind].
    rewrite filter_cons, list_to_set_cons.
    destruct (occupied b (row, col)) eqn:Hocc; cbn; rewrite IH by done.
    + by rewrite (assoc_L (∪)).
    + by rewrite (assoc_L (∪)), <- app_assoc.
  - rewrite filter_cons_False in Hon |- * by (by rewrite Hlive). cbn. by apply IH.
Qed.

(** The second loop of [validate_player_board]. *)
Lemma validate_squares_loop b (seen : gset pos) (invalid : list pos) :
  shape 8 8 b →
  for_each (range 8) (fun r invalid_positions =>
    for_each (range 8) (fun c invalid_positions =>
      if bool_decide ((r, c) ∉ seen) then
        let? occupied := cell b r c in
        if occupied then Ok (invalid_positions ++ [(r, c)])
        else Ok invalid_positions
      else Ok invalid_positions) invalid_positions) invalid
  = Ok (invalid ++ filter (fun sq => occupied b sq = true ∧ sq ∉ seen) (squares 8 8)).
Proof.
  intros Hb.
  rewrite (for_each_squares 8 8
    (fun inv sq => if bool_decide (occupied b sq = true ∧ sq ∉ seen) then inv ++ [sq] else inv)).
  - f_equal. generalize (squares 8 8). intros l. revert invalid.
    induction l as [|sq l IH]; intros invalid; cbn [fold_left]; [by rewrite app_nil_r|].
    rewrite IH, filter_cons.
    destruct (decide (occupied b sq = true ∧ sq ∉ seen)) as [Hsq|Hsq].
    + by rewrite bool_decide_eq_true_2, <- app_assoc.
    + by rewrite bool_decide_eq_false_2.
  - intros r c inv Hsq. apply elem_of_squares in Hsq as [Hr Hc].
    destruct (bool_decide_reflect ((r, c) ∉ seen)) as [Hseen|Hseen].
    + rewrite (shape_cell 8 8) by done. simpl.
      destruct (occupied b (r, c)) eqn:Hocc.
      * by rewrite bool_decide_eq_true_2.
      * rewrite bool_decide_eq_false_2; [done|]. intros [? _]. congruence.
    + rewrite bool_decide_eq_false_2; [done|]. by intros [_ ?].
Qed.

(** The result of [validate_player_board] on an 8x8 board: the squares of
    the player's pieces that the board shows empty, in the order of the
    pieces, and then the occupied squares where the player has no piece, in
    the order of the scan. *)
Lemma validate_player_board_result b (p : Z) self :
  shape 8 8 b → engine_pieces (Game.pieces (CheckersWrapper.game self)) →
  let expected := expected_squares (Game.pieces (CheckersWrapper.game self)) p p in
  CheckersWrapper.validate_player_board b p self =
    (Ok (filter (fun sq => occupied b sq = false) expected
         ++ filter (fun sq => occupied b sq = true ∧ sq ∉ expected) (squares 8 8)),
     self).
Proof.
  intros Hb Hps expected.
  unfold CheckersWrapper.validate_player_board, bind, gets, lift. f_equal.
  rewrite (validate_pieces_loop b p _ ∅ []) by (done || by apply expected_squares_on_board).
  cbn [outcome_bind]. rewrite validate_squares_loop by done.
  fold expected. cbn [app]. f_equal. f_equal.
  apply list_filter_iff. intros sq.
  by rewrite (left_id_L ∅ (∪)), elem_of_list_to_set.
Qed.

Lemma no_mismatch_iff b (expected : list pos) :
  Forall (fun sq => sq ∈ squares 8 8) expected →
  filter (fun sq => occupied b sq = false) expected
    ++ filter (fun sq => occupied b sq = true ∧ sq ∉ expected) (squares 8 8) = []
  ↔ ∀ sq, sq ∈ squares 8 8 → (occupied b sq = true ↔ sq ∈ expected).
Proof.
  intros Hon. rewrite Forall_forall in Hon. split.
  - intros Hnil. apply app_nil in Hnil as [Hmissing Hextra].
    intros sq Hsq. split.
    + intros Hocc. destruct (decide (sq ∈ expected)) as [|Hnot]; [done|].
      assert (sq ∈ filter (fun sq => occupied b sq = true ∧ sq ∉ expected) (squares 8 8))
        as Hin by (by apply list_elem_of_filter).
      rewrite Hextra in Hin. by apply elem_of_nil in Hin.
    + intros Hexp. destruct (occupied b sq) eqn:Hocc; [done|].
      assert (sq ∈ filter (fun sq => occupied b sq = false) expected)
        as Hin by (by apply list_elem_of_filter).
      rewrite Hmissing in Hin. by apply elem_of_nil in Hin.
  - intros Hiff. apply app_nil. split; apply elem_of_nil_inv; intros sq Hin;
      apply list_elem_of_filter in Hin as [Hsq Hin].
    + apply Hiff in Hin; [congruence|by apply Hon].
    + destruct Hsq as [Hocc Hnot]. apply Hnot. by apply Hiff.
Qed.

(** C6. On an 8x8 board [validate_player_board] returns the squares of the
    player's pieces on the board (not captured) that the snapshot shows
    empty, followed by the occupied squares of the snapshot on which the
    player has no such piece; so it returns the empty list exactly when the
    occupied squares of the snapshot are the squares of these pieces. *)
Theorem validate_player_board_mismatches b (p : Z) self :
  shape 8 8 b → engine_pieces (Game.pieces (CheckersWrapper.game self)) →
  let expected := expected_squares (Game.pieces (CheckersWrapper.game self)) p p in
  CheckersWrapper.validate_player_board b p self =
    (Ok (filter (fun sq => occupied b sq = false) expected
         ++ filter (fun sq => occupied b sq = true ∧ sq ∉ expected) (squares 8 8)),
     self) ∧
  ((CheckersWrapper.validate_player_board b p self).1 = Ok []
   ↔ ∀ sq, sq ∈ squares 8 8 → (occupied b sq = true ↔ sq ∈ expected)).
Proof.
  intros Hb Hps expected.
  pose proof (validate_player_board_result b p self Hb Hps) as Hresult.
  split; [exact Hresult|].
  rewrite Hresult. cbn [fst].
  etrans; [|apply no_mismatch_iff; by apply expected_squares_on_board].
  fold expected. split; [by intros [= ->]|by intros ->].
Qed.

Lemma occupied_blank (sq : pos) :
  sq ∈ squares 8 8 → occupied (replicate 8 (replicate 8 false)) sq = false.
Proof.
  destruct sq as [r c]. intros [Hr Hc]%elem_of_squares.
  rewrite occupied_lookup by lia.
  rewrite (lookup_replicate_2 8 (replicate 8 false)) by lia.
  change (default false (replicate 8 false !! Z.to_nat c) = false).
  by rewrite lookup_replicate_2 by lia.
Qed.

(** The loop of [add_opponent_pieces]. *)
Lemma add_opponent_loop ps (q : Z) (ob : board) :
  shape 8 8 ob → Forall (fun sq => sq ∈ squares 8 8) (shown_squares ps q) →
  ∃ ob',
    for_each ps (fun piece opponent_board =>
        if (Piece.other_player piece =? q) && negb (Piece.captured piece) then
          let '(row, col) := CheckersWrapper.checkers_to_grid (Piece.position piece) q in
          CheckersWrapper.mark opponent_board row col
        else Ok opponent_board) ob = Ok ob' ∧
    shape 8 8 ob' ∧
    ∀ sq, sq ∈ squares 8 8 →
      (occupied ob' sq = true ↔ occupied ob sq = true ∨ sq ∈ shown_squares ps q).
Proof.
  revert ob. induction ps as [|piece ps IH]; intros ob Hob Hon.
  { exists ob. split; [done|]. split; [done|]. intros sq _. split; [by left|].
    intros [?|Hin]; [done|]. by apply elem_of_nil in Hin. }
  unfold shown_squares in *. cbn [for_each].
  destruct ((Piece.other_player piece =? q) && negb (Piece.captured piece)) eqn:Hlive.
  - rewrite filter_cons_True in Hon |- * by done. rewrite fmap_cons in Hon |- *.
    apply Forall_cons in Hon as [Hsq Hon].
    destruct (CheckersWrapper.checkers_to_grid (Piece.position piece) q) as [row col].
    destruct (mark_spec ob row col Hob Hsq) as (ob1 & -> & Hob1 & Hmark).
    cbn [outcome_bind].
    destruct (IH ob1 Hob1 Hon) as (ob' & Hloop & Hob' & Hocc).
    exists ob'. split; [done|]. split; [done|].
    intros sq Hin. rewrite (Hocc sq Hin), (Hmark sq Hin), elem_of_cons. tauto.
  - rewrite filter_cons_False in Hon |- * by (by rewrite Hlive). cbn [outcome_bind].
    by apply IH.
Qed.

(** [add_opponent_pieces] returns an 8x8 board that shows exactly the
    squares of the pieces it selects. *)
Lemma add_opponent_pieces_result (q : Z) self :
  Forall (fun sq => sq ∈ squares 8 8)
    (shown_squares (Game.pieces (CheckersWrapper.game self)) q) →
  ∃ ob, CheckersWrapper.add_opponent_pieces q self = (Ok ob, self) ∧ shape 8 8 ob ∧
    ∀ sq, sq ∈ squares 8 8 →
      (occupied ob sq = true ↔ sq ∈ shown_squares (Game.pieces (CheckersWrapper.game self)) q).
Proof.
  intros Hon.
  assert (shape 8 8 (replicate 8 (replicate 8 false))) as Hblank.
  { split; [reflexivity|]. repeat constructor. }
  destruct (add_opponent_loop _ q _ Hblank Hon) as (ob & Hloop & Hob & Hocc).
  exists ob. split; [|split; [done|]].
  - unfold CheckersWrapper.add_opponent_pieces, bind, gets, lift. by rewrite Hloop.
  - intros sq Hsq. rewrite (Hocc sq Hsq), (occupied_blank sq Hsq).
    split; [by intros [?|?]|by right].
Qed.

Lemma shown_squares_opponent ps (p : Z) :
  engine_pieces ps → p = 1 ∨ p = 2 →
  shown_squares ps (opponent_of p) = expected_squares ps p (opponent_of p).
Proof.
  intros Hps Hp. unfold shown_squares, expected_squares. f_equal.
  induction Hps as [|piece ps (Hplayer & Hother & _) _ IH]; [done|].
  rewrite !filter_cons, IH. unfold own_live. rewrite Hother.
  by destruct Hp as [-> | ->], Hplayer as [-> | ->].
Qed.

Lemma expected_squares_flip ps (p : Z) (sq : pos) :
  engine_pieces ps → p = 1 ∨ p = 2 →
  sq ∈ expected_squares ps p (opponent_of p) ↔ flip sq ∈ expected_squares ps p p.
Proof.
  intros Hps Hp. unfold expected_squares. rewrite !list_elem_of_fmap.
  unfold engine_pieces in Hps. rewrite Forall_forall in Hps.
  assert (∀ piece, piece ∈ filter (fun piece => own_live p piece = true) ps →
    1 ≤ Piece.position piece ≤ 32) as Hpos.
  { intros piece [Hlive Hin]%list_elem_of_filter.
    destruct (Hps piece Hin) as (_ & _ & Hpos). apply Hpos.
    unfold own_live in Hlive. apply andb_true_iff in Hlive as [_ Hlive].
    by apply negb_true_iff. }
  split; intros (piece & Heq & Hin); exists piece; (split; [|done]);
    rewrite checkers_to_grid_opponent in * by (auto using Hpos).
  - by rewrite Heq, flip_flip.
  - by rewrite <- Heq, flip_flip.
Qed.

(** C2, as the code has it. For a player [p] of the two, the board
    [add_opponent_pieces] derives for the opponent of [p] shows the pieces
    of [p] in the opponent's frame; turned by half a turn, so that it is in
    the frame of [p], it validates for [p] with no mismatch. *)
Theorem rotated_expected_board_validates (p : Z) self :
  p = 1 ∨ p = 2 → engine_pieces (Game.pieces (CheckersWrapper.game self)) →
  ∃ ob,
    CheckersWrapper.add_opponent_pieces (opponent_of p) self = (Ok ob, self) ∧
    CheckersWrapper.validate_player_board (rotate ob) p self = (Ok [], self).
Proof.
  intros Hp Hps.
  destruct (add_opponent_pieces_result (opponent_of p) self) as (ob & Hadd & Hob & Hocc).
  { rewrite shown_squares_opponent by done. by apply expected_squares_on_board. }
  exists ob. split; [exact Hadd|].
  rewrite validate_player_board_result by (done || by apply shape_rotate).
  f_equal. f_equal. apply no_mismatch_iff; [by apply expected_squares_on_board|].
  intros sq Hsq. rewrite occupied_rotate by done.
  rewrite (Hocc (flip sq)) by (by apply flip_on_board).
  rewrite shown_squares_opponent, expected_squares_flip by done.
  by rewrite flip_flip.
Qed.

(** A method that reads a field and then computes on its own. *)
Lemma gets_lift_frame {A B : Type} (f : CheckersWrapper.t → A) (k : A → outcome B) self :
  ((let! x := gets f in lift (k x)) self).2 = self.
Proof. reflexivity. Qed.

Lemma add_opponent_pieces_frame (p : Z) self :
  (CheckersWrapper.add_opponent_pieces p self).2 = self.
Proof. apply gets_lift_frame. Qed.

Lemma validate_player_board_frame (b : board) (p : Z) self :
  (CheckersWrapper.validate_player_board b p self).2 = self.
Proof. apply gets_lift_frame. Qed.

(** C10. [add_opponent_pieces] and [validate_player_board] leave the
    object, and so the game it holds (pieces, positions, captured flags,
    turn), as it was, for every player and board, whether they return or
    raise. *)
Theorem reconciler_is_read_only (p : Z) (b : board) self :
  (CheckersWrapper.add_opponent_pieces p self).2 = self ∧
  (CheckersWrapper.validate_player_board b p self).2 = self.
Proof. split; [apply add_opponent_pieces_frame|apply validate_player_board_frame]. Qed.

End reconciliation.

(** ** The session registry *)

Section registry.
Context `{E : Game.RuleEngine}.
Implicit Types (c : CheckersWrapper.cls) (obj : CheckersWrapper.t) (self : ChatConsumer.t).

Lemma on_object_Some {A : Type} (ref : nat) (m : M CheckersWrapper.t A) c obj :
  CheckersWrapper.objects c !! ref = Some obj →
  CheckersWrapper.on_object ref m c =
    ((m obj).1, {| CheckersWrapper.objects := <[ref := (m obj).2]> (CheckersWrapper.objects c);
                   CheckersWrapper.instances := CheckersWrapper.instances c |}).
Proof.
  intros Hobj. unfold CheckersWrapper.on_object. rewrite Hobj. by destruct (m obj).
Qed.

(** A method that leaves its object as it was leaves the class as it was. *)
Lemma on_object_frame {A : Type} (ref : nat) (m : M CheckersWrapper.t A) c :
  (∀ obj, (m obj).2 = obj) → (CheckersWrapper.on_object ref m c).2 = c.
Proof.
  intros Hm. unfold CheckersWrapper.on_object.
  destruct (CheckersWrapper.objects c !! ref) as [obj|] eqn:Hobj; [|done].
  specialize (Hm obj). destruct (m obj) as [r obj']. cbn in *. subst obj'.
  rewrite list_insert_id by done. by destruct c.
Qed.

Lemma get_instance_registered (k : string) (ref : nat) c :
  CheckersWrapper.instances c !! k = Some ref →
  CheckersWrapper.get_instance k c = (Ok ref, c).
Proof. intros Hk. unfold CheckersWrapper.get_instance. by rewrite Hk. Qed.

Lemma get_instance_absent (k : string) c :
  CheckersWrapper.instances c !! k = None →
  CheckersWrapper.get_instance k c =
    (Ok (length (CheckersWrapper.objects c)),
     {| CheckersWrapper.objects := CheckersWrapper.objects c ++ [CheckersWrapper.init];
        CheckersWrapper.instances :=
          <[k := length (CheckersWrapper.objects c)]> (CheckersWrapper.instances c) |}).
Proof. intros Hk. unfold CheckersWrapper.get_instance. by rewrite Hk. Qed.

(** Joining a room that has a session. *)
Lemma connect_registered (name : string) (ref : nat) c obj :
  CheckersWrapper.instances c !! ("chat_" +:+ name) = Some ref →
  CheckersWrapper.objects c !! ref = Some obj →
  ChatConsumer.connect name c =
    (Ok {| ChatConsumer.room_name := name;
           ChatConsumer.room_group_name := "chat_" +:+ name;
           ChatConsumer.game := ref;
           ChatConsumer.player_num := slot_of (CheckersWrapper.instance_count obj + 1) |},
     {| CheckersWrapper.objects :=
          <[ref := {| CheckersWrapper.game := CheckersWrapper.game obj;
                      CheckersWrapper.instance_count := CheckersWrapper.instance_count obj + 1 |}]>
            (CheckersWrapper.objects c);
        CheckersWrapper.instances := CheckersWrapper.instances c |}).
Proof.
  intros Hk Hobj. unfold ChatConsumer.connect, bind.
  rewrite (get_instance_registered _ ref) by done.
  rewrite (on_object_Some _ _ _ obj) by done. cbn.
  pose proof (lookup_lt_Some _ _ _ Hobj) as Hlt.
  erewrite on_object_Some by (cbn; by apply list_lookup_insert_eq).
  cbn. by rewrite list_insert_insert_eq.
Qed.

(** Joining a room that has none. *)
Lemma connect_absent (name : string) c :
  CheckersWrapper.instances c !! ("chat_" +:+ name) = None →
  ChatConsumer.connect name c =
    (Ok {| ChatConsumer.room_name := name;
           ChatConsumer.room_group_name := "chat_" +:+ name;
           ChatConsumer.game := length (CheckersWrapper.objects c);
           ChatConsumer.player_num := 1 |},
     {| CheckersWrapper.objects :=
          CheckersWrapper.objects c
          ++ [{| CheckersWrapper.game := Game.new; CheckersWrapper.instance_count := 1 |}];
        CheckersWrapper.instances :=
          <[("chat_" +:+ name) := length (CheckersWrapper.objects c)]>
            (CheckersWrapper.instances c) |}).
Proof.
  intros Hk. unfold ChatConsumer.connect, bind.
  rewrite get_instance_absent by done.
  assert (∀ (x : CheckersWrapper.t) l, (l ++ [x]) !! length l = Some x) as Hlast.
  { intros x l. by apply list_lookup_middle. }
  assert (∀ (x y : CheckersWrapper.t) l, <[length l := y]> (l ++ [x]) = l ++ [y]) as Hset.
  { intros x y l. rewrite insert_app_r_alt by lia. by rewrite Nat.sub_diag. }
  erewrite on_object_Some by (cbn; apply Hlast). cbn. rewrite Hset.
  erewrite on_object_Some by (cbn; apply Hlast). cbn. by rewrite Hset.
Qed.

(** The last party leaves. *)
Lemma disconnect_last self c obj :
  CheckersWrapper.objects c !! ChatConsumer.game self = Some obj →
  CheckersWrapper.instance_count obj - 1 ≤ 0 →
  ChatConsumer.disconnect self c =
    (Ok tt,
     {| CheckersWrapper.objects :=
          <[ChatConsumer.game self :=
              {| CheckersWrapper.game := CheckersWrapper.game obj;
                 CheckersWrapper.instance_count := CheckersWrapper.instance_count obj + -1 |}]>
            (CheckersWrapper.objects c);
        CheckersWrapper.instances :=
          delete (ChatConsumer.room_group_name self) (CheckersWrapper.instances c) |}).
Proof.
  intros Hobj Hcount. unfold ChatConsumer.disconnect, bind.
  rewrite (on_object_Some _ _ _ obj) by done. cbn.
  pose proof (lookup_lt_Some _ _ _ Hobj) as Hlt.
  erewrite on_object_Some by (cbn; by apply list_lookup_insert_eq).
  cbn. rewrite list_insert_insert_eq.
  destruct (Z.leb_spec (CheckersWrapper.instance_count obj + -1) 0); [done|lia].
Qed.

Lemma joins_registered (name : string) (n : nat) (ref : nat) c obj :
  CheckersWrapper.instances c !! ("chat_" +:+ name) = Some ref →
  CheckersWrapper.objects c !! ref = Some obj →
  ∃ cs c', joins name n c = (Ok cs, c') ∧
    ChatConsumer.player_num <$> cs
    = (fun i => slot_of (CheckersWrapper.instance_count obj + Z.of_nat i)) <$> seq 1 n.
Proof.
  revert c obj. induction n as [|n IH]; intros c obj Hk Hobj.
  { by exists [], c. }
  cbn [joins]. unfold bind. rewrite (connect_registered name ref c obj) by done.
  pose proof (lookup_lt_Some _ _ _ Hobj) as Hlt.
  edestruct IH as (cs & c' & -> & Hslots); [..|eexists _, _; split; [done|]].
  - exact Hk.
  - cbn. by apply list_lookup_insert_eq.
  - change (seq 1 (S n)) with (1%nat :: seq 2 n). rewrite !fmap_cons. f_equal.
    rewrite Hslots, <- (fmap_S_seq 1), <- list_fmap_compose.
    apply list_fmap_ext. intros _ i _. cbn. f_equal. lia.
Qed.


(** C8, as the code has it. A party that joins receives the party count of
    the session after its join when this count is 1 or 2, and -1
    otherwise.  So the parties that join a room without a session one after
    the other, none leaving in between, receive 1, 2, and then -1. *)
Theorem slot_is_party_count (name : string) c :
  (∀ ref obj,
     CheckersWrapper.instances c !! ("chat_" +:+ name) = Some ref →
     CheckersWrapper.objects c !! ref = Some obj →
     ∃ self c', ChatConsumer.connect name c = (Ok self, c') ∧
       ChatConsumer.game self = ref ∧
       ChatConsumer.player_num self = slot_of (CheckersWrapper.instance_count obj + 1) ∧
       CheckersWrapper.instance_count <$> CheckersWrapper.objects c' !! ref
         = Some (CheckersWrapper.instance_count obj + 1)) ∧
  (CheckersWrapper.instances c !! ("chat_" +:+ name) = None →
   ∀ n, ∃ cs c', joins name n c = (Ok cs, c') ∧
     ChatConsumer.player_num <$> cs = (fun i => slot_of (Z.of_nat i)) <$> seq 1 n).
Proof.
  split.
  - intros ref obj Hk Hobj. eexists _, _.
    rewrite (connect_registered name ref c obj Hk Hobj). split; [done|].
    split; [done|]. split; [done|]. cbn.
    rewrite list_lookup_insert_eq by (by eapply lookup_lt_Some). done.
  - intros Hk [|n]; [by exists [], c|].
    cbn [joins]. unfold bind. rewrite (connect_absent name c Hk).
    edestruct (joins_registered name n) as (cs & c' & -> & Hslots);
      [..|eexists _, _; split; [done|]].
    + cbn. apply lookup_insert_eq.
    + cbn. by apply list_lookup_middle.
    + change (seq 1 (S n)) with (1%nat :: seq 2 n). rewrite !fmap_cons. f_equal.
      rewrite Hslots, <- (fmap_S_seq 1), <- list_fmap_compose.
      apply list_fmap_ext. intros _ i _. cbn. f_equal. lia.
Qed.

Lemma call_frame {A B : Type} (ref : nat) (m : M CheckersWrapper.t A) (f : A → B) c :
  (∀ obj, (m obj).2 = obj) →
  ((let! x := CheckersWrapper.on_object ref m in ret (f x)) c).2 = c.
Proof.
  intros Hm. unfold bind. pose proof (on_object_frame ref m c Hm) as Hframe.
  by destruct (CheckersWrapper.on_object ref m c) as [[a|e] c'].
Qed.

(** C9, as the code has it. The slot -1 bars nothing:
    [make_move_from_board] called with -1 does what it does for player 2
    (the squares are numbered without mirroring and the move is submitted
    to the engine, which applies it when it accepts it).  The commands
    other than [make_move_from_board], [make_move] and
    [random_player_move] leave every object and the registry as they
    were, whoever sends them. *)
Theorem unassigned_party_acts_as_player_2 :
  (∀ (prev curr : board) (errs : list pos) (obj : CheckersWrapper.t),
     CheckersWrapper.make_move_from_board prev curr (-1) errs obj
     = CheckersWrapper.make_move_from_board prev curr 2 errs obj) ∧
  (∀ self (cmd : ChatConsumer.command) c,
     reads_only cmd = true → (ChatConsumer.receive self cmd c).2 = c).
Proof.
  split; [reflexivity|].
  intros self cmd c Hcmd.
  destruct cmd; try discriminate Hcmd; unfold ChatConsumer.receive;
    try reflexivity; apply call_frame; intros obj;
    auto using add_opponent_pieces_frame, validate_player_board_frame.
Qed.

End registry.

(** ** The theorems at work, and where the code departs from its
    description *)

Lemma engine_pieces_after_opening :
  engine_pieces (Game.pieces (CheckersWrapper.game after_opening)).
Proof. apply (bool_decide_unpack _). by vm_compute. Qed.

(** C2 fails as it is stated. After the opening move 9-13 the board
    derived for player 2, the opponent of player 1, shows the twelve
    pieces of player 1 in rows 0 to 3; validated for player 1, whose frame
    has them in rows 4 to 7, it yields twenty-four mismatches. *)
Lemma expected_board_does_not_validate :
  (CheckersWrapper.add_opponent_pieces (opponent_of 1) after_opening).1
  = Ok (board_of [(0, 1); (0, 3); (0, 5); (0, 7); (1, 0); (1, 2); (1, 4); (1, 6);
                  (2, 3); (2, 5); (2, 7); (3, 0)]) ∧
  (CheckersWrapper.validate_player_board
     (board_of [(0, 1); (0, 3); (0, 5); (0, 7); (1, 0); (1, 2); (1, 4); (1, 6);
                (2, 3); (2, 5); (2, 7); (3, 0)]) 1 after_opening).1
  = Ok [(7, 6); (7, 4); (7, 2); (7, 0); (6, 7); (6, 5); (6, 3); (6, 1);
        (4, 7); (5, 4); (5, 2); (5, 0);
        (0, 1); (0, 3); (0, 5); (0, 7); (1, 0); (1, 2); (1, 4); (1, 6);
        (2, 3); (2, 5); (2, 7); (3, 0)].
Proof. split; vm_compute; reflexivity. Qed.

Lemma rotated_expected_board_validates_witness :
  ∃ ob,
    CheckersWrapper.add_opponent_pieces (opponent_of 1) after_opening = (Ok ob, after_opening) ∧
    CheckersWrapper.validate_player_board (rotate ob) 1 after_opening = (Ok [], after_opening).
Proof.
  apply (rotated_expected_board_validates (E := Steps.engine) 1 after_opening).
  - by left.
  - exact engine_pieces_after_opening.
Defined.

Lemma validate_player_board_mismatches_witness :
  (CheckersWrapper.validate_player_board
     (board_of [(4, 1); (5, 2); (5, 4); (5, 6); (6, 1); (6, 3); (6, 5); (6, 7);
                (7, 0); (7, 2); (7, 4); (7, 6)]) 2 after_opening).1
  = Ok [(5, 0); (4, 1)].
Proof.
  destruct (validate_player_board_mismatches (E := Steps.engine)
              (board_of [(4, 1); (5, 2); (5, 4); (5, 6); (6, 1); (6, 3); (6, 5); (6, 7);
                         (7, 0); (7, 2); (7, 4); (7, 6)]) 2 after_opening
              (shape_board_of _) engine_pieces_after_opening) as [Hresult _].
  rewrite Hresult. vm_compute. reflexivity.
Defined.


(** C8 fails as it is stated. Two parties join a room, the first leaves,
    and the party that joins third receives slot 2, which the second
    party holds. *)
Lemma third_joiner_receives_slot_2 :
  ((let! first := ChatConsumer.connect (E := Steps.engine) "room" in
    let! second := ChatConsumer.connect "room" in
    let! _ := ChatConsumer.disconnect first in
    let! third := ChatConsumer.connect "room" in
    ret (ChatConsumer.player_num <$> [first; second; third])) no_rooms).1
  = Ok [1; 2; 2].
Proof. vm_compute. reflexivity. Qed.

Lemma slot_is_party_count_witness :
  ∃ cs c', joins (E := Steps.engine) "room" 4 no_rooms = (Ok cs, c') ∧
    ChatConsumer.player_num <$> cs = [1; 2; -1; -1].
Proof.
  destruct (slot_is_party_count (E := Steps.engine) "room" no_rooms) as [_ Hjoins].
  apply (Hjoins eq_refl 4%nat).
Defined.

(** C9 fails as it is stated. The third party of a room holds slot -1; it
    sends two snapshots that differ by the step from (2, 1) to (3, 0), which
    is the opening move 9-13, and the engine applies the move: the turn
    passes from player 1 to player 2. *)
Lemma unassigned_party_moves :
  CheckersWrapper.make_move_from_board (board_of [(2, 1)]) (board_of [(3, 0)]) (-1) []
    (CheckersWrapper.init (E := Steps.engine))
  = (Ok (true, []), after_opening) ∧
  Game.whose_turn (CheckersWrapper.game (CheckersWrapper.init (E := Steps.engine))) = 1 ∧
  Game.whose_turn (CheckersWrapper.game after_opening) = 2 ∧
  ((let! parties := joins (E := Steps.engine) "room" 3 in
    match parties with
    | [_; _; third] =>
        let! results :=
          ChatConsumer.receive third
            (ChatConsumer.make_move_from_board (board_of [(2, 1)]) (board_of [(3, 0)])) in
        let! turn :=
          CheckersWrapper.on_object (ChatConsumer.game third) CheckersWrapper.whose_turn in
        ret (ChatConsumer.player_num third, results, turn)
    | _ => lift (Raise ReferenceError)
    end) no_rooms).1
  = Ok (-1, [ChatConsumer.VBool true; ChatConsumer.VPositions []], 2).
Proof. repeat split; vm_compute; reflexivity. Qed.

Lemma unassigned_party_acts_as_player_2_witness :
  (ChatConsumer.receive
     {| ChatConsumer.room_name := "room"; ChatConsumer.room_group_name := "chat_room";
        ChatConsumer.game := 0%nat; ChatConsumer.player_num := -1 |}
     ChatConsumer.add_opponent_pieces (joins (E := Steps.engine) "room" 3 no_rooms).2).2
  = (joins (E := Steps.engine) "room" 3 no_rooms).2.
Proof.
  destruct (unassigned_party_acts_as_player_2 (E := Steps.engine)) as [_ Hframe].
  apply Hframe. reflexivity.
Defined.

(** * More of the code *)

(** ** The coordinate mapper on and off the dark squares *)

(** Case analysis on a number known to lie in a [range]. *)
Ltac enumerate H :=
  vm_compute in H;
  repeat (apply elem_of_cons in H as [->|H]);
  try (by apply elem_of_nil in H).

Lemma grid_to_checkers_bounds (row col p : Z) :
  0 ≤ row ≤ 7 → 0 ≤ col ≤ 7 → (row + col) mod 2 = 1 →
  1 ≤ CheckersWrapper.grid_to_checkers row col p ≤ 32.
Proof.
  intros Hrow Hcol Hodd.
  assert (row ∈ range 8) as Hr by (apply elem_of_range; lia).
  assert (col ∈ range 8) as Hc by (apply elem_of_range; lia).
  unfold CheckersWrapper.grid_to_checkers.
  destruct (p =? 1); enumerate Hr; enumerate Hc;
    solve [vm_compute; split; discriminate | vm_compute in Hodd; discriminate Hodd].
Qed.

Lemma checkers_to_grid_dark (n p : Z) :
  1 ≤ n ≤ 32 →
  ((CheckersWrapper.checkers_to_grid n p).1 + (CheckersWrapper.checkers_to_grid n p).2) mod 2 = 1.
Proof.
  intros Hn. assert (n - 1 ∈ range 32) as Hin by (apply elem_of_range; lia).
  replace n with (n - 1 + 1) by lia. clear Hn. revert Hin. generalize (n - 1). intros m Hm.
  unfold CheckersWrapper.checkers_to_grid.
  destruct (p =? 1); enumerate Hm; reflexivity.
Qed.

(** X1. On a dark square of the board [grid_to_checkers] returns one of the
    numbers 1..32, whoever the player is. *)
Theorem grid_to_checkers_in_range (row col p : Z) :
  0 ≤ row ≤ 7 → 0 ≤ col ≤ 7 → (row + col) mod 2 = 1 →
  1 ≤ CheckersWrapper.grid_to_checkers row col p ≤ 32.
Proof. apply grid_to_checkers_bounds. Qed.

Lemma grid_to_checkers_in_range_witness :
  1 ≤ CheckersWrapper.grid_to_checkers 7 0 1 ≤ 32.
Proof. apply (grid_to_checkers_in_range 7 0 1); [lia | lia | reflexivity]. Defined.

(** X2. A number 1..32 is mapped by [checkers_to_grid] to a dark square of
    the board, and [grid_to_checkers] maps that square back to the number:
    with the round trip on squares, the two functions are a bijection
    between the dark squares and 1..32 for each player. *)
Theorem notation_round_trip (n p : Z) :
  1 ≤ n ≤ 32 →
  let sq := CheckersWrapper.checkers_to_grid n p in
  0 ≤ sq.1 ≤ 7 ∧ 0 ≤ sq.2 ≤ 7 ∧ (sq.1 + sq.2) mod 2 = 1 ∧
  CheckersWrapper.grid_to_checkers sq.1 sq.2 p = n.
Proof.
  intros Hn. assert (n - 1 ∈ range 32) as Hin by (apply elem_of_range; lia).
  replace n with (n - 1 + 1) by lia. clear Hn. revert Hin. generalize (n - 1). intros m Hm.
  unfold CheckersWrapper.checkers_to_grid, CheckersWrapper.grid_to_checkers.
  destruct (p =? 1); enumerate Hm; vm_compute; repeat split; discriminate.
Qed.

Lemma notation_round_trip_witness :
  CheckersWrapper.checkers_to_grid 13 1 = (4, 7) ∧
  CheckersWrapper.grid_to_checkers 4 7 1 = 13.
Proof.
  split; [reflexivity|].
  apply (notation_round_trip 13 1). lia.
Defined.

(** X3. The two players see one board from opposite sides: on a dark square
    the numbers for player 1 and player 2 add up to 33, and a number 1..32
    stands for player 1 on the square that half a turn of the board brings
    to its square for player 2. *)
Theorem frames_are_mirrored (row col n : Z) :
  0 ≤ row ≤ 7 → 0 ≤ col ≤ 7 → (row + col) mod 2 = 1 → 1 ≤ n ≤ 32 →
  CheckersWrapper.grid_to_checkers row col 1
    = 33 - CheckersWrapper.grid_to_checkers row col 2 ∧
  CheckersWrapper.checkers_to_grid n 1 = flip (CheckersWrapper.checkers_to_grid n 2).
Proof.
  intros Hrow Hcol Hodd Hn. split.
  - pose proof (grid_to_checkers_bounds row col 2 Hrow Hcol Hodd) as Hrange.
    unfold CheckersWrapper.grid_to_checkers in *.
    change (2 =? 1) with false in *. change (1 =? 1) with true. cbv iota in *.
    set (number := row * 4 + 1 + _ `div` 2) in *. lia.
  - rewrite <- (flip_flip (CheckersWrapper.checkers_to_grid n 1)). f_equal.
    symmetry. by apply (checkers_to_grid_opponent n 1); [|left].
Qed.

Lemma frames_are_mirrored_witness :
  CheckersWrapper.grid_to_checkers 2 1 1 = 33 - CheckersWrapper.grid_to_checkers 2 1 2 ∧
  CheckersWrapper.checkers_to_grid 9 1 = flip (CheckersWrapper.checkers_to_grid 9 2).
Proof. apply (frames_are_mirrored 2 1 9); [lia | lia | reflexivity | lia]. Defined.

(** X4. [grid_to_checkers] does not tell a light square from a dark one: a
    light square of the board right of column 0 gets the number of the dark
    square on its left. *)
Theorem light_square_is_its_left_neighbour (row col p : Z) :
  0 ≤ row ≤ 7 → 1 ≤ col ≤ 7 → (row + col) mod 2 = 0 →
  CheckersWrapper.grid_to_checkers row col p
    = CheckersWrapper.grid_to_checkers row (col - 1) p.
Proof.
  intros Hrow Hcol Heven.
  assert (row ∈ range 8) as Hr by (apply elem_of_range; lia).
  assert (col ∈ range 8) as Hc by (apply elem_of_range; lia).
  unfold CheckersWrapper.grid_to_checkers.
  destruct (p =? 1); enumerate Hr; enumerate Hc;
    solve [reflexivity | vm_compute in Heven; discriminate Heven | lia].
Qed.

Lemma light_square_is_its_left_neighbour_witness :
  CheckersWrapper.grid_to_checkers 3 1 2 = 13 ∧
  CheckersWrapper.grid_to_checkers 3 1 2 = CheckersWrapper.grid_to_checkers 3 (1 - 1) 2.
Proof.
  split; [reflexivity|].
  apply (light_square_is_its_left_neighbour 3 1 2); [lia | lia | reflexivity].
Defined.

(** ** Move inference on every input *)

Lemma py_getitem_raises {A : Type} (l : list A) (i : Z) (e : exn) :
  py_getitem l i = Raise e → e = IndexError.
Proof.
  unfold py_getitem, py_position.
  destruct ((0 <=? _) && _); cbn; [destruct (l !! _)|]; congruence.
Qed.

Lemma cell_raises (b : board) (r c : Z) (e : exn) :
  cell b r c = Raise e → e = IndexError.
Proof.
  unfold cell. destruct (py_getitem b r) as [line|e'] eqn:Hline; cbn.
  - apply py_getitem_raises.
  - intros [= <-]. by apply py_getitem_raises in Hline.
Qed.

Lemma for_each_raises {X S : Type} (xs : list X) (body : X → S → outcome S) (s : S) (e : exn) :
  (∀ x s' e', body x s' = Raise e' → e' = IndexError) →
  for_each xs body s = Raise e → e = IndexError.
Proof.
  intros Hbody. revert s. induction xs as [|x xs IH]; intros s; cbn; [done|].
  destruct (body x s) as [s'|e'] eqn:Hx; cbn; [apply IH|].
  intros [= <-]. by apply Hbody in Hx.
Qed.

(** A loop that returns has returned from its body at every element. *)
Lemma for_each_Ok_inv {X S : Type} (xs : list X) (body : X → S → outcome S) (s s' : S) (x : X) :
  for_each xs body s = Ok s' → x ∈ xs → ∃ s1 s2, body x s1 = Ok s2.
Proof.
  revert s. induction xs as [|y xs IH]; intros s Hloop Hin; [by apply elem_of_nil in Hin|].
  cbn in Hloop. destruct (body y s) as [s1|] eqn:Hy; [|done].
  apply elem_of_cons in Hin as [->|Hin]; [by eauto|]. by eapply IH.
Qed.

Section move_inference_edges.
Context `{E : Game.RuleEngine}.
Implicit Types (prev curr : board) (self : CheckersWrapper.t).

Lemma boards_same_raises prev curr (e : exn) :
  CheckersWrapper.boards_same prev curr = Raise e → e = IndexError.
Proof.
  unfold CheckersWrapper.boards_same. apply for_each_raises.
  intros r st e'. destruct (py_getitem prev 0) as [row0|e0] eqn:Hrow0; cbn.
  - apply for_each_raises. intros c [start_pos end_pos] e''.
    destruct (cell prev r c) as [p|e1] eqn:Hp; cbn;
      [|intros [= <-]; by apply cell_raises in Hp].
    destruct (cell curr r c) as [q|e2] eqn:Hq; cbn;
      [|intros [= <-]; by apply cell_raises in Hq].
    by destruct (p && negb q), (negb p && q).
  - intros [= <-]. by apply py_getitem_raises in Hrow0.
Qed.

Lemma make_move_from_board_outcomes prev curr (p : Z) (errs : list pos) self :
  let r := (CheckersWrapper.make_move_from_board prev curr p errs self).1 in
  let self' := (CheckersWrapper.make_move_from_board prev curr p errs self).2 in
  CheckersWrapper.instance_count self' = CheckersWrapper.instance_count self ∧
  ((r = Ok (true, errs) ∧
    ∃ mv, Game.move (CheckersWrapper.game self) mv = Some (CheckersWrapper.game self')) ∨
   (self' = self ∧
    (r = Ok (false, errs) ∨ (∃ e, r = Ok (false, errs ++ [e])) ∨ r = Raise IndexError))).
Proof.
  cbn zeta.
  destruct (CheckersWrapper.boards_same prev curr) as [[[s|] [e|]]|x] eqn:Hscan.
  - rewrite (make_move_from_board_found _ _ _ _ _ s e Hscan).
    destruct (Game.move _ _) as [g|] eqn:Hmove; cbn.
    + split; [done|]. left. split; [done|]. by eexists.
    + split; [done|]. right. split; [done|]. right. left. by eexists.
  - rewrite (make_move_from_board_not_found _ _ _ _ _ _ _ Hscan) by (by right).
    cbn. by auto.
  - rewrite (make_move_from_board_not_found _ _ _ _ _ _ _ Hscan) by (by left).
    cbn. by auto.
  - rewrite (make_move_from_board_not_found _ _ _ _ _ _ _ Hscan) by (by left).
    cbn. by auto.
  - unfold CheckersWrapper.make_move_from_board, bind, lift, CheckersWrapper.whose_turn, gets.
    rewrite Hscan. cbn. apply boards_same_raises in Hscan as ->. by auto 6.
Qed.


(** X5. Whatever the snapshots, the player and the engine are,
    [make_move_from_board] leaves [instance_count] alone and has one of
    two outcomes: it returns [True] with [error_location] as it was, and
    the game is the one the engine made of a move; or the object is as it
    was, and the call has returned [False], with at most one square added
    to [error_location], or raised [IndexError]. *)
Theorem game_changes_only_on_true prev curr (p : Z) (errs : list pos) self :
  let r := (CheckersWrapper.make_move_from_board prev curr p errs self).1 in
  let self' := (CheckersWrapper.make_move_from_board prev curr p errs self).2 in
  CheckersWrapper.instance_count self' = CheckersWrapper.instance_count self ∧
  ((r = Ok (true, errs) ∧
    ∃ mv, Game.move (CheckersWrapper.game self) mv = Some (CheckersWrapper.game self')) ∨
   (self' = self ∧
    (r = Ok (false, errs) ∨ (∃ e, r = Ok (false, errs ++ [e])) ∨ r = Raise IndexError))).
Proof. apply make_move_from_board_outcomes. Qed.

(** X6. When the earlier snapshot has no row, or its first row has no
    cell, the scan reads no cell of either snapshot: whatever the later
    snapshot is, [make_move_from_board] returns [False] and changes
    nothing. *)
Theorem empty_snapshot_is_no_move prev curr (p : Z) (errs : list pos) self :
  no_column prev →
  CheckersWrapper.make_move_from_board prev curr p errs self = (Ok (false, errs), self).
Proof.
  intros Hprev.
  apply (make_move_from_board_not_found _ _ _ _ _ None None); [|by left].
  unfold CheckersWrapper.boards_same. destruct prev as [|row0 rest]; [done|].
  cbn in Hprev. subst row0.
  rewrite (for_each_fold _ _ (fun st _ => st)).
  - f_equal. generalize (range (len ([] :: rest))). intros l. by induction l.
  - intros r st _. by change (py_getitem ([] :: rest) 0) with (Ok (@nil bool)).
Qed.

(** X7. When the later snapshot lacks a cell of an 8x8 earlier snapshot,
    [make_move_from_board] raises [IndexError] and changes nothing: no move
    reaches the engine. *)
Theorem short_snapshot_raises prev curr (p : Z) (errs : list pos) self (sq : pos) :
  shape 8 8 prev → sq ∈ squares 8 8 → cell curr sq.1 sq.2 = Raise IndexError →
  CheckersWrapper.make_move_from_board prev curr p errs self = (Raise IndexError, self).
Proof.
  intros Hprev Hsq Hcell. destruct sq as [r c]. cbn [fst snd] in Hcell.
  pose proof Hsq as [Hr Hc]%elem_of_squares.
  unfold CheckersWrapper.make_move_from_board, bind, lift, CheckersWrapper.whose_turn, gets.
  destruct (CheckersWrapper.boards_same prev curr) as [st|e] eqn:Hscan.
  - exfalso. unfold CheckersWrapper.boards_same, len in Hscan.
    pose proof Hprev as [Hlen Hlines]. rewrite Hlen in Hscan.
    eapply (for_each_Ok_inv _ _ _ _ r) in Hscan as (s1 & s2 & Hrow);
      [|by apply elem_of_range].
    destruct prev as [|row0 rest]; [done|].
    change (py_getitem (row0 :: rest) 0) with (Ok row0) in Hrow. cbn [outcome_bind] in Hrow.
    apply Forall_cons in Hlines as [Hrow0 _]. unfold len in Hrow. rewrite Hrow0 in Hrow.
    eapply (for_each_Ok_inv _ _ _ _ c) in Hrow as ([s1' e1'] & s2' & Hbody);
      [|by apply elem_of_range].
    rewrite (shape_cell 8 8 _ r c Hprev) in Hbody by done.
    cbn [outcome_bind] in Hbody. by rewrite Hcell in Hbody.
  - by apply boards_same_raises in Hscan as ->.
Qed.

(** X8. Exchanging two snapshots of one shape exchanges the start and the
    end that the scan finds. *)
Theorem boards_same_exchange (rows cols : nat) prev curr (s e : option pos) :
  shape rows cols prev → shape rows cols curr →
  CheckersWrapper.boards_same prev curr = Ok (s, e) →
  CheckersWrapper.boards_same curr prev = Ok (e, s).
Proof.
  intros Hprev Hcurr.
  rewrite (boards_same_last rows cols prev curr), (boards_same_last rows cols curr prev) by done.
  intros [= <- <-]. f_equal. f_equal; f_equal; apply list_filter_iff; intros sq;
    unfold vacated, filled; by rewrite andb_comm.
Qed.

End move_inference_edges.

Lemma empty_snapshot_is_no_move_witness :
  CheckersWrapper.make_move_from_board [[]; [true]] (board_of [(3, 0)]) 1 []
    (CheckersWrapper.init (E := Steps.engine))
  = (Ok (false, []), CheckersWrapper.init).
Proof. apply (empty_snapshot_is_no_move (E := Steps.engine)). reflexivity. Defined.

Lemma short_snapshot_raises_witness :
  CheckersWrapper.make_move_from_board (board_of [(2, 1)]) [] 2 []
    (CheckersWrapper.init (E := Steps.engine))
  = (Raise IndexError, CheckersWrapper.init).
Proof.
  apply (short_snapshot_raises (E := Steps.engine) (board_of [(2, 1)]) [] 2 []
           CheckersWrapper.init (0, 0) (shape_board_of _)).
  - apply elem_of_squares. lia.
  - reflexivity.
Defined.

Lemma boards_same_exchange_witness :
  CheckersWrapper.boards_same (board_of [(3, 0)]) (board_of [(2, 1)])
  = Ok (Some (3, 0), Some (2, 1)).
Proof.
  apply (boards_same_exchange 8 8 (board_of [(2, 1)]) (board_of [(3, 0)])
           (Some (2, 1)) (Some (3, 0)) (shape_board_of _) (shape_board_of _)).
  vm_compute. reflexivity.
Defined.

(** ** The random player *)

Lemma py_getitem_elem_of {A : Type} (l : list A) (i : Z) (x : A) :
  py_getitem l i = Ok x → x ∈ l.
Proof.
  unfold py_getitem. destruct (py_position l i) as [j|]; cbn; [|done].
  destruct (l !! j) eqn:Hj; [|done]. intros [= <-]. by eapply list_elem_of_lookup_2.
Qed.

Section random_player.
Context `{E : Game.RuleEngine}.
Implicit Types (self : CheckersWrapper.t) (draws : list Z).

(** The loop of [random_player_move], whatever its outcome. *)
Lemma random_player_move_loop_spec (whose : Z) draws self :
  let r := (CheckersWrapper.random_player_move_loop whose draws self).1 in
  let self' := (CheckersWrapper.random_player_move_loop whose draws self).2 in
  rtc plays_one (CheckersWrapper.game self) (CheckersWrapper.game self') ∧
  CheckersWrapper.instance_count self' = CheckersWrapper.instance_count self ∧
  (r = Ok true → Game.whose_turn (CheckersWrapper.game self') ≠ whose) ∧
  (r = Ok false → Game.whose_turn (CheckersWrapper.game self') = whose) ∧
  (∀ e, r = Raise e → e = IndexError ∨ e = RandomExhausted).
Proof.
  cbn zeta.
  assert (∀ (b : bool) (e : exn), Ok b = Raise e → e = IndexError ∨ e = RandomExhausted)
    as Hok by done.
  revert self. induction draws as [|d draws IH]; intros self;
    cbn [CheckersWrapper.random_player_move_loop];
    unfold bind, CheckersWrapper.whose_turn, CheckersWrapper.moves, gets, lift, ret;
    (destruct (Z.eqb_spec (Game.whose_turn (CheckersWrapper.game self)) whose)
       as [Hturn|Hturn]; [|cbn; by repeat split]);
    (destruct (len (Game.get_possible_moves (CheckersWrapper.game self)) =? 0)%nat;
       [cbn; by repeat split|]).
  { cbn. repeat split; try done. intros e [= <-]. by right. }
  destruct (py_getitem (Game.get_possible_moves (CheckersWrapper.game self)) d)
    as [mv|e] eqn:Hmv.
  - apply py_getitem_elem_of in Hmv. unfold CheckersWrapper.make_move.
    destruct (Game.move (CheckersWrapper.game self) mv) as [g|] eqn:Hmove; cbn.
    + specialize (IH {| CheckersWrapper.game := g;
                        CheckersWrapper.instance_count := CheckersWrapper.instance_count self |}).
      destruct IH as (Hplays & Hcount & Htrue & Hfalse & Hraise).
      split; [|done]. eapply rtc_l; [|exact Hplays]. by exists mv.
    + by repeat split.
  - cbn. apply py_getitem_raises in Hmv as ->. repeat split; try done.
    intros e [= <-]. by left.
Qed.

(** X9. When [random_player_move] returns, it returns [True] exactly when
    the turn has passed to the other player. *)
Theorem random_player_move_verdict draws self (b : bool) self' :
  CheckersWrapper.random_player_move draws self = (Ok b, self') →
  (b = true ↔
   Game.whose_turn (CheckersWrapper.game self') ≠ Game.whose_turn (CheckersWrapper.game self)).
Proof.
  unfold CheckersWrapper.random_player_move, bind, CheckersWrapper.whose_turn, gets.
  intros Hrun.
  pose proof (random_player_move_loop_spec
                (Game.whose_turn (CheckersWrapper.game self)) draws self)
    as (_ & _ & Htrue & Hfalse & _).
  rewrite Hrun in Htrue, Hfalse. cbn in Htrue, Hfalse.
  destruct b; split; try done.
  - intros _. by apply Htrue.
  - intros Hne. by specialize (Hfalse eq_refl).
Qed.

Lemma random_player_move_outcomes draws self :
  let r := (CheckersWrapper.random_player_move draws self).1 in
  let self' := (CheckersWrapper.random_player_move draws self).2 in
  rtc plays_one (CheckersWrapper.game self) (CheckersWrapper.game self') ∧
  CheckersWrapper.instance_count self' = CheckersWrapper.instance_count self ∧
  (∀ e, r = Raise e → e = IndexError ∨ e = RandomExhausted).
Proof.
  cbn zeta.
  unfold CheckersWrapper.random_player_move, bind, CheckersWrapper.whose_turn, gets.
  pose proof (random_player_move_loop_spec
                (Game.whose_turn (CheckersWrapper.game self)) draws self)
    as (Hplays & Hcount & _ & _ & Hraise).
  by destruct (CheckersWrapper.random_player_move_loop _ _ _) as [[b|e] self'].
Qed.

Lemma random_player_move_count draws self :
  CheckersWrapper.instance_count (CheckersWrapper.random_player_move draws self).2
  = CheckersWrapper.instance_count self.
Proof. apply random_player_move_outcomes. Qed.

(** X10. [random_player_move] changes the game only by moves that the
    engine lists as possible and accepts, one after the other, and leaves
    [instance_count] alone, whether it returns or raises; and it raises
    nothing but [IndexError] (a draw outside the list of moves) and the
    exhaustion of the draws. *)
Theorem random_player_move_plays_possible_moves draws self :
  let r := (CheckersWrapper.random_player_move draws self).1 in
  let self' := (CheckersWrapper.random_player_move draws self).2 in
  rtc plays_one (CheckersWrapper.game self) (CheckersWrapper.game self') ∧
  CheckersWrapper.instance_count self' = CheckersWrapper.instance_count self ∧
  (∀ e, r = Raise e → e = IndexError ∨ e = RandomExhausted).
Proof. apply random_player_move_outcomes. Qed.

(** X11. When the engine lists no possible move, [random_player_move]
    returns [False] at once: it draws no number and changes nothing. *)
Theorem random_player_move_without_moves draws self :
  Game.get_possible_moves (CheckersWrapper.game self) = [] →
  CheckersWrapper.random_player_move draws self = (Ok false, self).
Proof.
  intros Hnone.
  unfold CheckersWrapper.random_player_move, bind, CheckersWrapper.whose_turn, gets.
  destruct draws; cbn [CheckersWrapper.random_player_move_loop];
    unfold bind, CheckersWrapper.whose_turn, CheckersWrapper.moves, gets, ret;
    by rewrite Z.eqb_refl, Hnone.
Qed.

End random_player.

Lemma random_player_move_verdict_witness :
  true = true ↔
  Game.whose_turn (CheckersWrapper.game after_opening)
  ≠ Game.whose_turn (CheckersWrapper.game (CheckersWrapper.init (E := Steps.engine))).
Proof.
  apply (random_player_move_verdict (E := Steps.engine) [0] CheckersWrapper.init).
  vm_compute. reflexivity.
Defined.

Lemma random_player_move_without_moves_witness :
  CheckersWrapper.random_player_move (E := Steps.engine) []
    (@CheckersWrapper.Build_t Steps.engine {| Steps.men := []; Steps.turn := 2 |} 2)
  = (Ok false,
     @CheckersWrapper.Build_t Steps.engine {| Steps.men := []; Steps.turn := 2 |} 2).
Proof. apply (random_player_move_without_moves (E := Steps.engine)). reflexivity. Defined.

(** ** The reconciler at its edges *)

(** No number is mapped to the corner square (0, 0). *)
Lemma checkers_to_grid_not_corner (n p : Z) : CheckersWrapper.checkers_to_grid n p ≠ (0, 0).
Proof.
  unfold CheckersWrapper.checkers_to_grid.
  set (num := if p =? 1 then Z.abs (n - 33) else n).
  cbv zeta. intros [= Hrow Hcol]. rewrite Hrow in Hcol.
  change (0 `mod` 2 =? 0) with true in Hcol. cbv iota in Hcol. lia.
Qed.

Section reconciliation_edges.
Context `{E : Game.RuleEngine}.
Implicit Types (b : board) (self : CheckersWrapper.t) (ps : list Piece.t).

Lemma shown_squares_on_board ps (q : Z) :
  engine_pieces ps → Forall (fun sq => sq ∈ squares 8 8) (shown_squares ps q).
Proof.
  intros Hps. unfold shown_squares. apply Forall_fmap, Forall_forall.
  intros piece [Hlive Hin]%list_elem_of_filter.
  unfold engine_pieces in Hps. rewrite Forall_forall in Hps.
  destruct (Hps piece Hin) as (_ & _ & Hpos).
  apply checkers_to_grid_on_board, Hpos.
  apply andb_true_iff in Hlive as [_ Hlive]. by apply negb_true_iff.
Qed.

(** X12. On the pieces of the engine [add_opponent_pieces] returns an 8x8
    board, and the squares it shows occupied are dark squares: those where,
    in the frame of the player, a piece stands that is not captured and
    has the player as its opponent. *)
Theorem add_opponent_pieces_shows_the_opponent (q : Z) self :
  engine_pieces (Game.pieces (CheckersWrapper.game self)) →
  ∃ ob, CheckersWrapper.add_opponent_pieces q self = (Ok ob, self) ∧ shape 8 8 ob ∧
    ∀ sq, sq ∈ squares 8 8 →
      (occupied ob sq = true ↔
       (sq.1 + sq.2) mod 2 = 1 ∧
       ∃ piece, piece ∈ Game.pieces (CheckersWrapper.game self) ∧
         Piece.other_player piece = q ∧ Piece.captured piece = false ∧
         CheckersWrapper.checkers_to_grid (Piece.position piece) q = sq).
Proof.
  intros Hps.
  destruct (add_opponent_pieces_result q self (shown_squares_on_board _ q Hps))
    as (ob & Hadd & Hob & Hocc).
  exists ob. split; [done|]. split; [done|].
  intros sq Hsq. rewrite (Hocc sq Hsq). unfold shown_squares.
  rewrite list_elem_of_fmap. split.
  - intros (piece & -> & [Hlive Hin]%list_elem_of_filter).
    apply andb_true_iff in Hlive as [Hq%Z.eqb_eq Hlive%negb_true_iff].
    unfold engine_pieces in Hps. rewrite Forall_forall in Hps.
    destruct (Hps piece Hin) as (_ & _ & Hpos).
    split; [by apply checkers_to_grid_dark, Hpos|]. by exists piece.
  - intros (_ & piece & Hin & Hq & Hlive & <-). exists piece. split; [done|].
    apply list_elem_of_filter. split; [|done].
    apply andb_true_iff. by rewrite Z.eqb_eq, negb_true_iff.
Qed.

(** X13. A party that is neither player 1 nor player 2 (the slot -1) owns
    no piece and is no piece's opponent: [add_opponent_pieces] returns the
    empty 8x8 board for it, and [validate_player_board] reports every
    occupied square of its snapshot, in the order of the scan. *)
Theorem observer_board_is_all_wrong b (p : Z) self :
  p ≠ 1 → p ≠ 2 →
  engine_pieces (Game.pieces (CheckersWrapper.game self)) → shape 8 8 b →
  CheckersWrapper.add_opponent_pieces p self = (Ok (replicate 8 (replicate 8 false)), self) ∧
  CheckersWrapper.validate_player_board b p self
  = (Ok (filter (fun sq => occupied b sq = true) (squares 8 8)), self).
Proof.
  intros Hp1 Hp2 Hps Hb. split.
  - unfold CheckersWrapper.add_opponent_pieces, bind, gets, lift. f_equal.
    generalize (replicate 8 (replicate 8 false)). intros ob.
    induction Hps as [|piece ps (Hplayer & Hother & _) _ IH]; [done|].
    cbn [for_each]. rewrite Hother.
    assert ((opponent_of (Piece.player piece) =? p) = false) as ->.
    { apply Z.eqb_neq. unfold opponent_of. by destruct (_ =? 1). }
    exact IH.
  - rewrite validate_player_board_result by done.
    assert (expected_squares (Game.pieces (CheckersWrapper.game self)) p p = []) as ->.
    { unfold expected_squares.
      induction Hps as [|piece ps (Hplayer & _) _ IH]; [done|].
      rewrite filter_cons_False; [exact IH|].
      unfold own_live. destruct (Z.eqb_spec (Piece.player piece) p); [lia|done]. }
    cbn [filter list_filter app]. f_equal. f_equal.
    apply list_filter_iff. intros sq. split; [by intros [? _]|].
    intros Hocc. split; [done|]. apply not_elem_of_nil.
Qed.

(** The first loop of [validate_player_board] never adds the corner square
    to [seen]. *)
Lemma validate_pieces_loop_corner b (p : Z) ps (seen : gset pos) (invalid : list pos) :
  (0, 0) ∉ seen →
  match
    for_each ps (fun piece '(seen, invalid_positions) =>
        if (Piece.player piece =? p) && negb (Piece.captured piece) then
          let '(row, col) := CheckersWrapper.checkers_to_grid (Piece.position piece) p in
          let seen : gset pos := seen ∪ {[ (row, col) ]} in
          let? occupied := cell b row col in
          if negb occupied then Ok (seen, invalid_positions ++ [(row, col)])
          else Ok (seen, invalid_positions)
        else Ok (seen, invalid_positions)) (seen, invalid)
  with
  | Ok (seen', _) => (0, 0) ∉ seen'
  | Raise e => e = IndexError
  end.
Proof.
  revert seen invalid. induction ps as [|piece ps IH]; intros seen invalid Hseen; [done|].
  cbn [for_each].
  destruct ((Piece.player piece =? p) && negb (Piece.captured piece)); [|by apply IH].
  pose proof (checkers_to_grid_not_corner (Piece.position piece) p) as Hcorner.
  destruct (CheckersWrapper.checkers_to_grid (Piece.position piece) p) as [row col].
  destruct (cell b row col) as [v|e] eqn:Hcell; cbn [outcome_bind];
    [|by apply cell_raises in Hcell].
  destruct v; cbn; apply IH; (apply not_elem_of_union; split; [done|]);
    apply not_elem_of_singleton; congruence.
Qed.

(** X14. A snapshot that has no cell (0, 0), because it has no row or its
    first row is empty, makes [validate_player_board] raise [IndexError],
    whatever the pieces and the player are. *)
Theorem validate_player_board_needs_the_corner b (p : Z) self :
  no_column b →
  CheckersWrapper.validate_player_board b p self = (Raise IndexError, self).
Proof.
  intros Hb.
  assert (cell b 0 0 = Raise IndexError) as Hcell.
  { destruct b as [|row0 rest]; [done|]. cbn in Hb. by subst row0. }
  unfold CheckersWrapper.validate_player_board, bind, gets, lift. f_equal.
  pose proof (validate_pieces_loop_corner b p (Game.pieces (CheckersWrapper.game self)) ∅ [])
    as Hloop.
  destruct (for_each (Game.pieces (CheckersWrapper.game self)) _ _) as [[seen invalid]|e].
  - specialize (Hloop (not_elem_of_empty _)). cbn [outcome_bind].
    change (range 8) with (0 :: (Z.of_nat <$> seq 1 7)). cbn [for_each].
    rewrite bool_decide_eq_true_2 by done. by rewrite Hcell.
  - cbn. f_equal. apply Hloop. apply not_elem_of_empty.
Qed.

End reconciliation_edges.

Lemma add_opponent_pieces_shows_the_opponent_witness :
  ∃ ob, CheckersWrapper.add_opponent_pieces 2 after_opening = (Ok ob, after_opening) ∧
    shape 8 8 ob ∧
    ∀ sq, sq ∈ squares 8 8 →
      (occupied ob sq = true ↔
       (sq.1 + sq.2) mod 2 = 1 ∧
       ∃ piece, piece ∈ Game.pieces (CheckersWrapper.game after_opening) ∧
         Piece.other_player piece = 2 ∧ Piece.captured piece = false ∧
         CheckersWrapper.checkers_to_grid (Piece.position piece) 2 = sq).
Proof.
  apply (add_opponent_pieces_shows_the_opponent (E := Steps.engine) 2 after_opening).
  exact engine_pieces_after_opening.
Defined.

Lemma observer_board_is_all_wrong_witness :
  CheckersWrapper.validate_player_board (board_of [(2, 1); (5, 4)]) (-1) after_opening
  = (Ok [(2, 1); (5, 4)], after_opening).
Proof.
  destruct (observer_board_is_all_wrong (E := Steps.engine) (board_of [(2, 1); (5, 4)]) (-1)
              after_opening) as [_ Hvalidate];
    [lia | lia | exact engine_pieces_after_opening | apply shape_board_of |].
  rewrite Hvalidate. vm_compute. reflexivity.
Defined.

Lemma validate_player_board_needs_the_corner_witness :
  CheckersWrapper.validate_player_board [] 1 after_opening = (Raise IndexError, after_opening).
Proof.
  apply (validate_player_board_needs_the_corner (E := Steps.engine) [] 1 after_opening).
  exact I.
Defined.

(** ** Commands and the class *)

Section commands.
Context `{E : Game.RuleEngine}.
Implicit Types (c : CheckersWrapper.cls) (obj : CheckersWrapper.t) (self : ChatConsumer.t).

(** What a method call followed by the making of the reply does to the
    class, when the method keeps [instance_count]. *)
Lemma call_changes {A B : Type} (ref : nat) (m : M CheckersWrapper.t A)
    (k : A → M CheckersWrapper.cls B) c :
  (∀ obj, CheckersWrapper.instance_count (m obj).2 = CheckersWrapper.instance_count obj) →
  (∀ x c', (k x c').2 = c') →
  (bind (CheckersWrapper.on_object ref m) k c).2 = c ∨
  ∃ obj obj', CheckersWrapper.objects c !! ref = Some obj ∧
    CheckersWrapper.instance_count obj' = CheckersWrapper.instance_count obj ∧
    (bind (CheckersWrapper.on_object ref m) k c).2 =
      {| CheckersWrapper.objects := <[ref := obj']> (CheckersWrapper.objects c);
         CheckersWrapper.instances := CheckersWrapper.instances c |}.
Proof.
  intros Hm Hk. unfold bind.
  destruct (CheckersWrapper.objects c !! ref) as [obj|] eqn:Hobj.
  - right. exists obj, (m obj).2. split; [done|]. split; [apply Hm|].
    rewrite (on_object_Some _ _ _ obj Hobj). by destruct (m obj).1; [rewrite Hk|].
  - left. unfold CheckersWrapper.on_object. by rewrite Hobj.
Qed.

Lemma receive_changes self (cmd : ChatConsumer.command) c :
  (ChatConsumer.receive self cmd c).2 = c ∨
  ∃ obj obj', CheckersWrapper.objects c !! ChatConsumer.game self = Some obj ∧
    CheckersWrapper.instance_count obj' = CheckersWrapper.instance_count obj ∧
    (ChatConsumer.receive self cmd c).2 =
      {| CheckersWrapper.objects := <[ChatConsumer.game self := obj']> (CheckersWrapper.objects c);
         CheckersWrapper.instances := CheckersWrapper.instances c |}.
Proof.
  destruct cmd; unfold ChatConsumer.receive; try (by left);
    apply call_changes; try done; try (by intros [? ?] ?); intros obj.
  - apply make_move_from_board_outcomes.
  - apply (random_player_move_count draws obj).
  - unfold CheckersWrapper.make_move. by destruct (Game.move _ _).
Qed.

(** X15. A command changes one thing at most: the object that the sender
    holds.  The registry, every [instance_count] and every other object
    are after [receive] what they were before, whatever the command and
    whether it returns or raises. *)
Theorem receive_touches_one_object self (cmd : ChatConsumer.command) c :
  let c' := (ChatConsumer.receive self cmd c).2 in
  CheckersWrapper.instances c' = CheckersWrapper.instances c ∧
  (∀ ref, CheckersWrapper.instance_count <$> CheckersWrapper.objects c' !! ref
          = CheckersWrapper.instance_count <$> CheckersWrapper.objects c !! ref) ∧
  (∀ ref, ref ≠ ChatConsumer.game self →
          CheckersWrapper.objects c' !! ref = CheckersWrapper.objects c !! ref).
Proof.
  cbn zeta.
  destruct (receive_changes self cmd c) as [->|(obj & obj' & Hobj & Hcount & ->)]; [done|].
  cbn. split; [done|]. split.
  - intros ref. destruct (decide (ref = ChatConsumer.game self)) as [->|Hne].
    + rewrite list_lookup_insert_eq by (by eapply lookup_lt_Some). rewrite Hobj. cbn.
      by rewrite Hcount.
    + by rewrite list_lookup_insert_ne.
  - intros ref Hne. by rewrite list_lookup_insert_ne.
Qed.

(** X16. The reply to [make_move_from_board] is the verdict and a list of
    squares.  The list is empty when the verdict is [True], and holds one
    square at most: each request starts from an empty [error_location]. *)
Theorem make_move_from_board_reply self (prev curr : board) c (results : list ChatConsumer.value) c' :
  ChatConsumer.receive self (ChatConsumer.make_move_from_board prev curr) c = (Ok results, c') →
  ∃ (moved : bool) (squares : list pos),
    results = [ChatConsumer.VBool moved; ChatConsumer.VPositions squares] ∧
    (moved = true → squares = []) ∧ (length squares ≤ 1)%nat.
Proof.
  unfold ChatConsumer.receive, bind, CheckersWrapper.on_object.
  destruct (CheckersWrapper.objects c !! ChatConsumer.game self) as [obj|]; [|done].
  pose proof (make_move_from_board_outcomes prev curr (ChatConsumer.player_num self) [] obj)
    as (_ & Hcases).
  destruct (CheckersWrapper.make_move_from_board _ _ _ _ obj) as [[[moved squares]|e] obj'];
    [|done].
  cbn in Hcases. intros [= <- <-]. exists moved, squares. split; [done|].
  destruct Hcases as [[[= -> ->] _]|[_ [[= -> ->]|[[e [= -> ->]]|[=]]]]]; by cbn; auto.
Qed.

End commands.

Lemma make_move_from_board_reply_witness :
  let self := {| ChatConsumer.room_name := "room"; ChatConsumer.room_group_name := "chat_room";
                 ChatConsumer.game := 0%nat; ChatConsumer.player_num := 1 |} in
  let c := (joins (E := Steps.engine) "room" 1 no_rooms).2 in
  ∃ (moved : bool) (squares : list pos),
    [ChatConsumer.VBool false; ChatConsumer.VPositions [(4, 1)]]
    = [ChatConsumer.VBool moved; ChatConsumer.VPositions squares] ∧
    (moved = true → squares = []) ∧ (length squares ≤ 1)%nat.
Proof.
  intros self c.
  apply (make_move_from_board_reply (E := Steps.engine) self
           (board_of [(2, 1)]) (board_of [(4, 1)]) c _ c).
  vm_compute. reflexivity.
Defined.

(** ** Parties and sessions *)

Lemma holders_snoc (ref : nat) (ps : list ChatConsumer.t) (self : ChatConsumer.t) :
  holders ref (ps ++ [self])
  = holders ref ps ++ (if decide (ChatConsumer.game self = ref) then [self] else []).
Proof.
  unfold holders. rewrite filter_app. f_equal.
Qed.

Lemma holders_delete (ref : nat) (ps : list ChatConsumer.t) (i : nat) (self : ChatConsumer.t) :
  ps !! i = Some self →
  length (holders ref ps)
  = (length (holders ref (delete i ps))
     + (if decide (ChatConsumer.game self = ref) then 1 else 0))%nat.
Proof.
  unfold holders. revert i. induction ps as [|other ps IH]; intros i Hi; [done|].
  destruct i as [|i]; cbn in Hi.
  - injection Hi as ->. change (delete 0%nat (self :: ps)) with ps. rewrite filter_cons.
    destruct (decide _); cbn [length]; lia.
  - change (delete (S i) (other :: ps)) with (other :: delete i ps).
    rewrite !filter_cons. specialize (IH i Hi).
    destruct (decide (ChatConsumer.game self = ref)),
      (decide (ChatConsumer.game other = ref)); cbn [length]; lia.
Qed.

Lemma holders_elem_of (ref : nat) (ps : list ChatConsumer.t) (self : ChatConsumer.t) :
  self ∈ ps → ChatConsumer.game self = ref → (1 ≤ length (holders ref ps))%nat.
Proof.
  intros Hin Href.
  assert (self ∈ holders ref ps) as Hholds by (by apply list_elem_of_filter).
  destruct (holders ref ps); [by apply elem_of_nil in Hholds|cbn; lia].
Qed.

Section sessions.
Context `{E : Game.RuleEngine}.
Implicit Types (c : CheckersWrapper.cls) (obj : CheckersWrapper.t) (self : ChatConsumer.t).
Implicit Types (ps : list ChatConsumer.t).

(** A party leaves and others stay. *)
Lemma disconnect_stays self c obj :
  CheckersWrapper.objects c !! ChatConsumer.game self = Some obj →
  0 < CheckersWrapper.instance_count obj - 1 →
  ChatConsumer.disconnect self c =
    (Ok tt,
     {| CheckersWrapper.objects :=
          <[ChatConsumer.game self :=
              {| CheckersWrapper.game := CheckersWrapper.game obj;
                 CheckersWrapper.instance_count := CheckersWrapper.instance_count obj + -1 |}]>
            (CheckersWrapper.objects c);
        CheckersWrapper.instances := CheckersWrapper.instances c |}).
Proof.
  intros Hobj Hcount. unfold ChatConsumer.disconnect, bind.
  rewrite (on_object_Some _ _ _ obj) by done. cbn.
  pose proof (lookup_lt_Some _ _ _ Hobj) as Hlt.
  erewrite on_object_Some by (cbn; by apply list_lookup_insert_eq).
  cbn. rewrite list_insert_insert_eq.
  destruct (Z.leb_spec (CheckersWrapper.instance_count obj + -1) 0); [lia|done].
Qed.

(** X17. A party that joins a room in which somebody is and then leaves
    puts the class back exactly as it was. *)
Theorem join_then_leave_restores (name : string) (ref : nat) c obj :
  CheckersWrapper.instances c !! ("chat_" +:+ name) = Some ref →
  CheckersWrapper.objects c !! ref = Some obj →
  1 ≤ CheckersWrapper.instance_count obj →
  ∃ self c1,
    ChatConsumer.connect name c = (Ok self, c1) ∧
    ChatConsumer.disconnect self c1 = (Ok tt, c).
Proof.
  intros Hk Hobj Hcount. eexists _, _.
  rewrite (connect_registered name ref c obj Hk Hobj). split; [done|].
  pose proof (lookup_lt_Some _ _ _ Hobj) as Hlt.
  erewrite disconnect_stays; [|cbn; by apply list_lookup_insert_eq|cbn; lia].
  cbn. f_equal. rewrite list_insert_insert_eq.
  replace (CheckersWrapper.instance_count obj + 1 + -1)
    with (CheckersWrapper.instance_count obj) by lia.
  destruct c as [objects instances], obj as [g n]. cbn in *. f_equal.
  by apply list_insert_id.
Qed.

(** X18. A party that joins a room without a session receives slot 1, and
    when it leaves again the registry is what it was before it came: the
    room has no session.  The object made for it stays behind, with count
    zero, and nothing refers to it. *)
Theorem sole_party_leaves_no_session (name : string) c :
  CheckersWrapper.instances c !! ("chat_" +:+ name) = None →
  ∃ self c1 c2,
    ChatConsumer.connect name c = (Ok self, c1) ∧
    ChatConsumer.player_num self = 1 ∧
    ChatConsumer.disconnect self c1 = (Ok tt, c2) ∧
    CheckersWrapper.instances c2 = CheckersWrapper.instances c ∧
    CheckersWrapper.objects c2
    = CheckersWrapper.objects c
      ++ [{| CheckersWrapper.game := Game.new; CheckersWrapper.instance_count := 0 |}].
Proof.
  intros Hk. eexists _, _, _. rewrite (connect_absent name c Hk).
  split; [done|]. split; [done|].
  erewrite disconnect_last; [|cbn; by apply list_lookup_middle|cbn; lia].
  split; [done|]. cbn. split; [by apply delete_insert_id|].
  rewrite insert_app_r_alt by lia. by rewrite Nat.sub_diag.
Qed.

End sessions.

(** ** What holds while the server runs *)

Lemma room_key_injective (name1 name2 : string) :
  "chat_" +:+ name1 = "chat_" +:+ name2 → name1 = name2.
Proof. intros Heq. by simplify_eq/=. Qed.

Section invariant.
Context `{E : Game.RuleEngine}.
Implicit Types (c : CheckersWrapper.cls) (obj : CheckersWrapper.t) (self : ChatConsumer.t).
Implicit Types (ps : list ChatConsumer.t).

Lemma consistent_start : consistent no_rooms [].
Proof.
  split; [|split].
  - intros k ref Hk. cbn in Hk. by rewrite lookup_empty in Hk.
  - intros self Hin. by apply elem_of_nil in Hin.
  - intros k1 k2 ref Hk. cbn in Hk. by rewrite lookup_empty in Hk.
Qed.

Lemma consistent_registered c ps (k : string) (ref : nat) :
  consistent c ps → CheckersWrapper.instances c !! k = Some ref →
  (ref < length (CheckersWrapper.objects c))%nat.
Proof.
  intros (Hobjs & _) Hk. destruct (Hobjs k ref Hk) as (obj & Hobj & _).
  by eapply lookup_lt_Some.
Qed.

Lemma consistent_connect c ps (name : string) :
  consistent c ps →
  ∃ self c', ChatConsumer.connect name c = (Ok self, c') ∧ consistent c' (ps ++ [self]).
Proof.
  intros Hc. pose proof Hc as (Hobjs & Hparties & Hinj).
  destruct (CheckersWrapper.instances c !! ("chat_" +:+ name)) as [ref|] eqn:Hk.
  - destruct (Hobjs _ _ Hk) as (obj & Hobj & Hcount & Hpos).
    pose proof (lookup_lt_Some _ _ _ Hobj) as Hlt.
    eexists _, _. rewrite (connect_registered name ref c obj Hk Hobj). split; [done|].
    split; [|split]; cbn.
    + intros k' ref' Hk'. rewrite holders_snoc, length_app. cbn [ChatConsumer.game].
      destruct (decide (ref = ref')) as [<-|Hne].
      * eexists. rewrite list_lookup_insert_eq by done. split; [done|]. cbn. lia.
      * destruct (Hobjs _ _ Hk') as (obj' & Hobj' & Hcount' & Hpos'). exists obj'.
        rewrite list_lookup_insert_ne by done. split; [done|]. cbn. split; [lia|done].
    + intros self [Hin|Hin]%elem_of_app; [by apply Hparties|].
      by apply list_elem_of_singleton in Hin as ->.
    + exact Hinj.
  - eexists _, _. rewrite (connect_absent name c Hk). split; [done|].
    split; [|split]; cbn.
    + intros k' ref' Hk'. rewrite holders_snoc, length_app. cbn [ChatConsumer.game].
      apply lookup_insert_Some in Hk' as [[<- <-]|[Hne Hk']].
      * eexists. split; [by apply list_lookup_middle|]. cbn.
        assert (holders (length (CheckersWrapper.objects c)) ps = []) as ->.
        { apply elem_of_nil_inv. intros other [Hgame Hin]%list_elem_of_filter.
          pose proof (consistent_registered c ps _ _ Hc (Hparties other Hin)). lia. }
        rewrite decide_True by done. cbn. lia.
      * destruct (Hobjs _ _ Hk') as (obj' & Hobj' & Hcount' & Hpos'). exists obj'.
        pose proof (lookup_lt_Some _ _ _ Hobj') as Hlt.
        rewrite lookup_app_l by done. split; [done|].
        rewrite decide_False by lia. cbn. split; [lia|done].
    + intros self [Hin|Hin]%elem_of_app.
      * rewrite lookup_insert_ne; [by apply Hparties|].
        intros Heq. specialize (Hparties self Hin). rewrite <- Heq in Hparties. congruence.
      * apply list_elem_of_singleton in Hin as ->. apply lookup_insert_eq.
    + intros k1 k2 ref' [[<- <-]|[Hne1 H1]]%lookup_insert_Some
        [[<- Href]|[Hne2 H2]]%lookup_insert_Some; try done.
      * pose proof (consistent_registered c ps _ _ Hc H2). lia.
      * pose proof (consistent_registered c ps _ _ Hc H1). lia.
      * by eapply Hinj.
Qed.

Lemma consistent_receive c ps self (cmd : ChatConsumer.command) :
  consistent c ps → consistent (ChatConsumer.receive self cmd c).2 ps.
Proof.
  intros Hc. pose proof Hc as (Hobjs & Hparties & Hinj).
  destruct (receive_changes self cmd c) as [->|(obj & obj' & Hobj & Hcount & ->)]; [done|].
  split; [|by split]. cbn. intros k ref Hk.
  destruct (Hobjs _ _ Hk) as (obj0 & Hobj0 & Hcount0 & Hpos0).
  destruct (decide (ChatConsumer.game self = ref)) as [<-|Hne].
  - exists obj'. rewrite list_lookup_insert_eq by (by eapply lookup_lt_Some).
    split; [done|]. rewrite Hcount. by simplify_eq.
  - exists obj0. by rewrite list_lookup_insert_ne.
Qed.

Lemma consistent_disconnect c ps (i : nat) self :
  consistent c ps → ps !! i = Some self →
  ∃ c', ChatConsumer.disconnect self c = (Ok tt, c') ∧ consistent c' (delete i ps) ∧
    (CheckersWrapper.instances c' !! ChatConsumer.room_group_name self = None
     ↔ length (holders (ChatConsumer.game self) ps) = 1%nat).
Proof.
  intros Hc Hi. pose proof Hc as (Hobjs & Hparties & Hinj).
  assert (self ∈ ps) as Hin by (by eapply list_elem_of_lookup_2).
  pose proof (Hparties self Hin) as Hk.
  destruct (Hobjs _ _ Hk) as (obj & Hobj & Hcount & Hpos).
  pose proof (lookup_lt_Some _ _ _ Hobj) as Hlt.
  pose proof (holders_delete (ChatConsumer.game self) ps i self Hi) as Hself.
  rewrite decide_True in Hself by done.
  assert (∀ ref, ref ≠ ChatConsumer.game self →
    length (holders ref (delete i ps)) = length (holders ref ps)) as Hothers.
  { intros ref Hne. pose proof (holders_delete ref ps i self Hi) as Hdel.
    rewrite decide_False in Hdel by done. lia. }
  destruct (Z.le_gt_cases (CheckersWrapper.instance_count obj - 1) 0) as [Hlast|Hmore].
  - eexists. rewrite (disconnect_last self c obj Hobj Hlast). split; [done|].
    split; [split; [|split]|]; cbn.
    + intros k' ref' [Hne Hk']%lookup_delete_Some.
      assert (ref' ≠ ChatConsumer.game self) as Href.
      { intros ->. apply Hne. by eapply Hinj. }
      destruct (Hobjs _ _ Hk') as (obj' & Hobj' & Hcount' & Hpos'). exists obj'.
      rewrite list_lookup_insert_ne by done. by rewrite Hothers.
    + intros other Hother. pose proof (list_elem_of_delete_inv _ _ _ Hother) as Hold.
      rewrite lookup_delete_ne; [by apply Hparties|].
      intros Heq. specialize (Hparties other Hold). rewrite <- Heq, Hk in Hparties.
      injection Hparties as Hgame.
      pose proof (holders_elem_of (ChatConsumer.game self) (delete i ps) other Hother).
      lia.
    + intros k1 k2 ref' [_ H1]%lookup_delete_Some [_ H2]%lookup_delete_Some.
      by eapply Hinj.
    + rewrite lookup_delete_eq. split; [lia|done].
  - eexists. rewrite (disconnect_stays self c obj Hobj) by lia. split; [done|].
    split; [split; [|split]|]; cbn.
    + intros k' ref' Hk'. destruct (decide (ref' = ChatConsumer.game self)) as [->|Href].
      * eexists. rewrite list_lookup_insert_eq by done. split; [done|]. cbn. lia.
      * destruct (Hobjs _ _ Hk') as (obj' & Hobj' & Hcount' & Hpos'). exists obj'.
        rewrite list_lookup_insert_ne by done. by rewrite Hothers.
    + intros other Hother. apply Hparties. by eapply list_elem_of_delete_inv.
    + exact Hinj.
    + rewrite Hk. split; [done|lia].
Qed.

Lemma reachable_consistent c ps : reachable c ps → consistent c ps.
Proof.
  induction 1 as [|c ps name self c' _ IH Hconnect|c ps self cmd r c' _ IH _ Hreceive
                  |c ps i self r c' _ IH Hi Hdisconnect].
  - apply consistent_start.
  - destruct (consistent_connect c ps name IH) as (self' & c'' & Heq & Hc).
    rewrite Hconnect in Heq. by simplify_eq.
  - pose proof (consistent_receive c ps self cmd IH) as Hc. by rewrite Hreceive in Hc.
  - destruct (consistent_disconnect c ps i self IH Hi) as (c'' & Heq & Hc & _).
    rewrite Hdisconnect in Heq. by simplify_eq.
Qed.

(** X19. While the server runs, the registry and the connected parties
    agree: the object of every registered room exists, its
    [instance_count] is the number of connected parties that hold it, and
    that is at least one; every connected party holds the object its room
    is registered with; and no two rooms share an object. *)
Theorem reachable_is_consistent c ps : reachable c ps → consistent c ps.
Proof. apply reachable_consistent. Qed.

(** X20. While the server runs, [connect] and the [disconnect] of a
    connected party always return, and the [disconnect] removes the room
    from the registry exactly when the party that leaves is the only one
    that holds the room's object. *)
Theorem joining_and_leaving_succeed c ps :
  reachable c ps →
  (∀ name, ∃ self c', ChatConsumer.connect name c = (Ok self, c') ∧
     reachable c' (ps ++ [self])) ∧
  (∀ i self, ps !! i = Some self →
     ∃ c', ChatConsumer.disconnect self c = (Ok tt, c') ∧
       (CheckersWrapper.instances c' !! ChatConsumer.room_group_name self = None
        ↔ length (holders (ChatConsumer.game self) ps) = 1%nat)).
Proof.
  intros Hreach. pose proof (reachable_consistent c ps Hreach) as Hc. split.
  - intros name. destruct (consistent_connect c ps name Hc) as (self & c' & Hconnect & _).
    exists self, c'. split; [done|]. by eapply reachable_connect.
  - intros i self Hi.
    destruct (consistent_disconnect c ps i self Hc Hi) as (c' & Hdisconnect & _ & Hfree).
    by exists c'.
Qed.

(** X21. Rooms do not meet.  While the server runs, a party that joins a
    room of another name gets an object other than that of a registered
    room, and leaves that room's entry in the registry and its object as
    they were. *)
Theorem rooms_are_apart c ps (name1 name2 : string) (ref : nat) self c' :
  reachable c ps → name1 ≠ name2 →
  CheckersWrapper.instances c !! ("chat_" +:+ name1) = Some ref →
  ChatConsumer.connect name2 c = (Ok self, c') →
  ChatConsumer.game self ≠ ref ∧
  CheckersWrapper.instances c' !! ("chat_" +:+ name1) = Some ref ∧
  CheckersWrapper.objects c' !! ref = CheckersWrapper.objects c !! ref.
Proof.
  intros Hreach Hnames Hk1 Hconnect.
  pose proof (reachable_consistent c ps Hreach) as Hc.
  pose proof Hc as (Hobjs & _ & Hinj).
  pose proof (consistent_registered c ps _ _ Hc Hk1) as Hlt.
  assert ("chat_" +:+ name2 ≠ "chat_" +:+ name1) as Hkeys.
  { intros Heq. by apply room_key_injective in Heq. }
  destruct (CheckersWrapper.instances c !! ("chat_" +:+ name2)) as [ref2|] eqn:Hk2.
  - destruct (Hobjs _ _ Hk2) as (obj2 & Hobj2 & _).
    rewrite (connect_registered name2 ref2 c obj2 Hk2 Hobj2) in Hconnect.
    injection Hconnect as <- <-. cbn.
    assert (ref2 ≠ ref) as Href.
    { intros ->. apply Hkeys. by eapply Hinj. }
    split; [done|]. split; [done|]. by rewrite list_lookup_insert_ne.
  - rewrite (connect_absent name2 c Hk2) in Hconnect. injection Hconnect as <- <-. cbn.
    split; [lia|]. split; [by rewrite lookup_insert_ne|]. by rewrite lookup_app_l.
Qed.

End invariant.

Lemma connect_first_party :
  ChatConsumer.connect (E := Steps.engine) "room" no_rooms = (Ok first_party, one_party_room).
Proof. by rewrite connect_absent. Qed.

Lemma reachable_one_party_room : reachable one_party_room [first_party].
Proof. exact (reachable_connect no_rooms [] "room" _ _ reachable_start connect_first_party). Qed.

Lemma join_then_leave_restores_witness :
  ∃ self c1,
    ChatConsumer.connect "room" one_party_room = (Ok self, c1) ∧
    ChatConsumer.disconnect self c1 = (Ok tt, one_party_room).
Proof.
  apply (join_then_leave_restores (E := Steps.engine) "room" 0 one_party_room
           {| CheckersWrapper.game := Game.new; CheckersWrapper.instance_count := 1 |}).
  - reflexivity.
  - reflexivity.
  - cbn. lia.
Defined.

Lemma sole_party_leaves_no_session_witness :
  ∃ self c1 c2,
    ChatConsumer.connect (E := Steps.engine) "room" no_rooms = (Ok self, c1) ∧
    ChatConsumer.player_num self = 1 ∧
    ChatConsumer.disconnect self c1 = (Ok tt, c2) ∧
    CheckersWrapper.instances c2 = ∅ ∧
    CheckersWrapper.objects c2
    = [{| CheckersWrapper.game := Game.new; CheckersWrapper.instance_count := 0 |}].
Proof.
  apply (sole_party_leaves_no_session (E := Steps.engine) "room" no_rooms).
  reflexivity.
Defined.

Lemma reachable_is_consistent_witness : consistent one_party_room [first_party].
Proof.
  apply (reachable_is_consistent (E := Steps.engine)).
  exact reachable_one_party_room.
Defined.

Lemma joining_and_leaving_succeed_witness :
  ∃ c', ChatConsumer.disconnect first_party one_party_room = (Ok tt, c') ∧
    (CheckersWrapper.instances c' !! "chat_room" = None
     ↔ length (holders 0 [first_party]) = 1%nat).
Proof.
  destruct (joining_and_leaving_succeed (E := Steps.engine) one_party_room [first_party]
              reachable_one_party_room) as [_ Hleave].
  exact (Hleave 0%nat first_party eq_refl).
Defined.

Lemma rooms_are_apart_witness :
  (1%nat ≠ 0%nat) ∧
  CheckersWrapper.instances (ChatConsumer.connect "hall" one_party_room).2 !! "chat_room"
  = Some 0%nat ∧
  CheckersWrapper.objects (ChatConsumer.connect "hall" one_party_room).2 !! 0%nat
  = CheckersWrapper.objects one_party_room !! 0%nat.
Proof.
  apply (rooms_are_apart (E := Steps.engine) one_party_room [first_party] "room" "hall" 0
           {| ChatConsumer.room_name := "hall"; ChatConsumer.room_group_name := "chat_hall";
              ChatConsumer.game := 1%nat; ChatConsumer.player_num := 1 |}
           (ChatConsumer.connect "hall" one_party_room).2 reachable_one_party_room).
  - discriminate.
  - reflexivity.
  - by rewrite connect_absent.
Defined.
